(** * Verification of Tor's log distribution engine (src/common/log.c)

    A shallow embedding of [log.c]: the severity scale, the message
    formatter working on a fixed-size character buffer, the registry of
    log sinks (the linked list [logfiles]) and the operations that walk
    it: dispatch ([logv]), rotation ([reset_logs]), shutdown
    ([close_logs]), the temporary-sink lifecycle ([mark_logs_temp],
    [close_temp_logs]) and registration ([add_stream_log],
    [add_file_log], [add_callback_log], [add_syslog_log]).

    Conventions of the embedding.
    - The linked list [logfiles] is a Rocq list of [logfile_t] records; a
      pointer to a node is its position in the list and [lf->next] is the
      next position.
    - The C library and the operating system are an oracle [env_t]: every
      call made to them is appended to a trace of [event]s, and the
      result of a call is a function of the trace so far, so that the
      theorems hold for every behaviour of the outside world.
    - A callback is a call to the outside world like the others: it
      does not call back into the log.
    - Assertion failures ([assert], [tor_assert]) abort the program: the
      operations live in a state-and-failure monad [M].
    - [int] flags that the code only uses as truth values are [bool];
      severities are [Z]; sizes and offsets into buffers are [nat].  The
      buffer arithmetic of [format_msg] and [_log_prefix] never wraps at
      the buffer sizes the code uses (10024 and 256). *)

From stdpp Require Import base tactics option list numbers strings sets.
From Stdlib Require Import ZArith Ascii Lia.
From Stdlib Require String DecimalString.

Set Warnings "-abstract-large-number".

Local Open Scope Z_scope.

(** ** Severities (log.h) *)

(** Modelled from the spec: [log.h] is absent; it takes the severities
    from [syslog.h] ([LOG_WARN] being syslog's [LOG_WARNING]), which are
    ordered Error < Warn < Notice < Info < Debug, more critical
    severities having smaller values. *)
Definition LOG_ERR : Z := 3.
Definition LOG_WARN : Z := 4.
Definition LOG_NOTICE : Z := 5.
Definition LOG_INFO : Z := 6.
Definition LOG_DEBUG : Z := 7.

Definition severities : list Z :=
  [LOG_ERR; LOG_WARN; LOG_NOTICE; LOG_INFO; LOG_DEBUG].

(** A well-formed severity argument: one of the five of the scale. *)
Definition is_severity (s : Z) : Prop := s ∈ severities.

(** [sev_to_string]: the [default] branch is [assert(0)], rendered as
    [None]. *)
Definition sev_to_string (severity : Z) : option string :=
  if severity =? LOG_DEBUG then Some "debug"
  else if severity =? LOG_INFO then Some "info"
  else if severity =? LOG_NOTICE then Some "notice"
  else if severity =? LOG_WARN then Some "warn"
  else if severity =? LOG_ERR then Some "err"
  else None.

Definition log_level_to_string (level : Z) : option string :=
  sev_to_string level.

(** *** [strcasecmp] of the C library *)

Definition tolower (c : ascii) : Z :=
  let n := Z.of_nat (nat_of_ascii c) in
  if (65 <=? n) && (n <=? 90) then n + 32 else n.

(** The end of a Rocq string stands for the terminator; a [NUL]
    character inside it terminates the C string earlier. *)
Fixpoint strcasecmp (s1 s2 : string) : Z :=
  match s1, s2 with
  | EmptyString, EmptyString => 0
  | EmptyString, String c2 _ => 0 - tolower c2
  | String c1 _, EmptyString => tolower c1
  | String c1 r1, String c2 r2 =>
      let d := tolower c1 - tolower c2 in
      if d =? 0 then (if tolower c1 =? 0 then 0 else strcasecmp r1 r2) else d
  end.

Definition parse_log_level (level : string) : Z :=
  if strcasecmp level "err" =? 0 then LOG_ERR
  else if strcasecmp level "warn" =? 0 then LOG_WARN
  else if strcasecmp level "notice" =? 0 then LOG_NOTICE
  else if strcasecmp level "info" =? 0 then LOG_INFO
  else if strcasecmp level "debug" =? 0 then LOG_DEBUG
  else -1.

(** The string with its ASCII upper-case letters lowered. *)
Fixpoint lowercase (s : string) : string :=
  match s with
  | EmptyString => EmptyString
  | String c r => String (ascii_of_nat (Z.to_nat (tolower c))) (lowercase r)
  end.

(** ** Character buffers and the bounded string primitives *)

Definition NUL : ascii := "000"%char.
Definition LF : ascii := "010"%char.

(** The characters of a string up to its first [NUL]: the C string that
    a [const char *] argument denotes. *)
Fixpoint cstring (s : string) : string :=
  match s with
  | EmptyString => EmptyString
  | String c r => if Ascii.eqb c NUL then EmptyString else String c (cstring r)
  end.

Local Close Scope Z_scope.

(** A [char] array is a list of characters; a pointer into it is an
    offset.  [uninit n] stands for an automatic array of [n] characters
    before anything is written to it. *)
Definition uninit (n : nat) : list ascii := replicate n NUL.

(** Write [bytes] at offset [off] (callers stay within the array). *)
Definition poke (off : nat) (bytes : list ascii) (buf : list ascii) : list ascii :=
  take off buf ++ bytes ++ drop (off + length bytes) buf.

Fixpoint until_nul (l : list ascii) : list ascii :=
  match l with
  | [] => []
  | c :: r => if Ascii.eqb c NUL then [] else c :: until_nul r
  end.

(** The C string that starts at [buf + off]. *)
Definition c_str (buf : list ascii) (off : nat) : string :=
  String.string_of_list_ascii (until_nul (drop off buf)).

Definition strlen (buf : list ascii) (off : nat) : nat :=
  length (until_nul (drop off buf)).

(** Modelled from the spec: [tor_snprintf] and [tor_vsnprintf] live in
    [util.c], which is absent: "a bounded, failure-reporting
    formatted-string renderer: render(buffer, capacity, format, args) ->
    bytesWritten | Overflow".  [rendered] is the text the format and its
    arguments expand to.  As [vsnprintf] does, the renderer stores what
    fits in [size - 1] characters and a terminator; it answers [-1] when
    the text does not fit, and the length of the text otherwise. *)
Definition tor_snprintf (buf : list ascii) (off size : nat) (rendered : string)
  : list ascii * Z :=
  if (size =? 0)%nat then (buf, (-1)%Z)
  else
    let out := take (size - 1) (String.list_ascii_of_string rendered) in
    let buf1 := poke off (out ++ [NUL]) buf in
    let buf2 := <[(off + size - 1)%nat := NUL]> buf1 in
    (buf2, if (String.length rendered <? size)%nat
           then Z.of_nat (String.length rendered) else (-1)%Z).

Definition tor_vsnprintf := tor_snprintf.

(** [strlcpy(dst, src, siz)] of the C library: at most [siz - 1]
    characters and a terminator. *)
Definition strlcpy (buf : list ascii) (off : nat) (src : string) (siz : nat)
  : list ascii :=
  if (siz =? 0)%nat then buf
  else poke off (take (siz - 1) (String.list_ascii_of_string src) ++ [NUL]) buf.

(** [strftime(buf, max, fmt, tm)] of the C library, [rendered] being the
    expansion of [fmt]: it answers [0] when the text and its terminator
    do not fit. *)
Definition strftime (buf : list ascii) (off max : nat) (rendered : string)
  : list ascii * nat :=
  if (String.length rendered <? max)%nat
  then (poke off (String.list_ascii_of_string rendered ++ [NUL]) buf, String.length rendered)
  else (buf, 0).

(** The conversion [%.3ld]: at least three decimal digits. *)
Definition fmt_ld_prec3 (v : Z) : string :=
  let digits := DecimalString.NilEmpty.string_of_uint (N.to_uint (Z.to_N (Z.abs v))) in
  let pad := String.string_of_list_ascii (replicate (3 - String.length digits) "0"%char) in
  (if (v <? 0)%Z then "-" else "") +:+ pad +:+ digits.

(** The size of the buffer of [logv]: [char buf[10024]]. *)
Definition LOGV_BUF_SIZE : nat := 10024.

Definition TRUNCATED_STR : string := "[...truncated]".
Definition TRUNCATED_STR_LEN : nat := 14.

(** ** The outside world *)

(** A [FILE *] that is not [NULL], and a function pointer. *)
Definition FILE : Type := nat.
Definition log_callback : Type := nat.
Definition stdout : FILE := 1.

(** The calls the subsystem makes to its collaborators, with their
    results.  [EFormatMsg] instruments the entry of [format_msg]. *)
Inductive event : Type :=
| EFopen (path : string) (res : option FILE)
| EFclose (f : FILE) (ok : bool)
| EFputs (text : string) (f : FILE) (ok : bool)
| EFflush (f : FILE) (ok : bool)
| EFtell (f : FILE) (pos : Z)
| EGettimeofday (sec usec : Z)
| EOpenlog
| ECloselog
| ESyslog (priority : Z) (text : string)
| ECallback (cb : log_callback) (severity : Z) (text : string)
| EFormatMsg.

(** What the outside world answers, given everything that happened so
    far.  [os_fopen] is [fopen(path, "a")]; the booleans say whether the
    call succeeded (did not return [EOF]); [os_strftime t] is the local
    time [t] under the format ["%b %d %H:%M:%S"].  [VERSION] comes from
    [orconfig.h]. *)
Record env_t : Type := {
  VERSION : string;
  os_fopen : list event → string → option FILE;
  os_fclose : list event → FILE → bool;
  os_fputs : list event → string → FILE → bool;
  os_fflush : list event → FILE → bool;
  os_ftell : list event → FILE → Z;
  os_gettimeofday : list event → Z * Z;
  os_strftime : Z → string }.

(** ** The registry *)

(** [logfile_t] without its [next] field, which the list provides. *)
Record logfile_t : Type := {
  filename : string;
  file : option FILE;
  needs_close : bool;
  loglevel : Z;
  max_loglevel : Z;
  is_temporary : bool;
  is_syslog : bool;
  callback : option log_callback }.

Definition set_file (f : option FILE) (lf : logfile_t) : logfile_t :=
  {| filename := filename lf; file := f; needs_close := needs_close lf;
     loglevel := loglevel lf; max_loglevel := max_loglevel lf;
     is_temporary := is_temporary lf; is_syslog := is_syslog lf;
     callback := callback lf |}.

Definition set_needs_close (b : bool) (lf : logfile_t) : logfile_t :=
  {| filename := filename lf; file := file lf; needs_close := b;
     loglevel := loglevel lf; max_loglevel := max_loglevel lf;
     is_temporary := is_temporary lf; is_syslog := is_syslog lf;
     callback := callback lf |}.

Definition set_is_temporary (b : bool) (lf : logfile_t) : logfile_t :=
  {| filename := filename lf; file := file lf; needs_close := needs_close lf;
     loglevel := loglevel lf; max_loglevel := max_loglevel lf;
     is_temporary := b; is_syslog := is_syslog lf;
     callback := callback lf |}.

(** The static variables of [log.c] and the trace of the calls made. *)
Record state : Type := {
  logfiles : list logfile_t;
  syslog_count : Z;
  trace : list event }.

Definition set_logfiles (l : list logfile_t) (st : state) : state :=
  {| logfiles := l; syslog_count := syslog_count st; trace := trace st |}.

Definition set_syslog_count (n : Z) (st : state) : state :=
  {| logfiles := logfiles st; syslog_count := n; trace := trace st |}.

Definition add_event (e : event) (st : state) : state :=
  {| logfiles := logfiles st; syslog_count := syslog_count st;
     trace := trace st ++ [e] |}.

(** ** The monad of the operations: state, and abort on a failed
    assertion or a [NULL] dereference *)

Definition M (A : Type) : Type := state → option (A * state).

Definition ret {A} (a : A) : M A := λ st, Some (a, st).
Definition abort {A} : M A := λ _, None.
Definition bind {A B} (m : M A) (k : A → M B) : M B :=
  λ st, match m st with
        | Some (a, st') => k a st'
        | None => None
        end.

Notation "'let*' x ':=' m 'in' k" := (bind m (λ x, k))
  (at level 10, x pattern, m at level 100, k at level 200).
Notation "m ';;' k" := (bind m (λ _, k))
  (at level 100, k at level 200, right associativity).

Definition get_logfiles : M (list logfile_t) := λ st, Some (logfiles st, st).
Definition put_logfiles (l : list logfile_t) : M unit :=
  λ st, Some (tt, set_logfiles l st).
Definition assert_some {A} (o : option A) : M A :=
  match o with Some a => ret a | None => abort end.

Section Operations.

Context (env : env_t).

(** *** Calls to the outside world *)

Definition fopen (path : string) : M (option FILE) := λ st,
  let r := os_fopen env (trace st) path in Some (r, add_event (EFopen path r) st).
Definition fclose (f : FILE) : M bool := λ st,
  let ok := os_fclose env (trace st) f in Some (ok, add_event (EFclose f ok) st).
Definition fputs (text : string) (f : FILE) : M bool := λ st,
  let ok := os_fputs env (trace st) text f in Some (ok, add_event (EFputs text f ok) st).
Definition fflush (f : FILE) : M bool := λ st,
  let ok := os_fflush env (trace st) f in Some (ok, add_event (EFflush f ok) st).
Definition ftell (f : FILE) : M Z := λ st,
  let pos := os_ftell env (trace st) f in Some (pos, add_event (EFtell f pos) st).
Definition tor_gettimeofday : M (Z * Z) := λ st,
  let now := os_gettimeofday env (trace st) in
  Some (now, add_event (EGettimeofday now.1 now.2) st).
Definition emit (e : event) : M unit := λ st, Some (tt, add_event e st).

(** *** [_log_prefix] *)

Definition _log_prefix (buf : list ascii) (buf_len : nat) (severity : Z)
  : M (list ascii * nat) :=
  let* now := tor_gettimeofday in
  let '(buf, n) := strftime buf 0 buf_len (os_strftime env now.1) in
  let* sev := assert_some (sev_to_string severity) in
  let '(buf, r) :=
    tor_snprintf buf n (buf_len - n)
      ("." +:+ fmt_ld_prec3 (now.2 `quot` 1000) +:+ " [" +:+ sev +:+ "] ") in
  if (r <? 0)%Z then ret (buf, buf_len - 1)
  else ret (buf, n + Z.to_nat r).

(** *** [log_tor_version] *)

Definition log_tor_version (lf : logfile_t) (reset : bool) : M unit :=
  if negb (needs_close lf) then ret tt
  else if is_temporary lf then ret tt
  else
    let* f := assert_some (file lf) in
    let* pos := ftell f in
    let is_new := (pos =? 0)%Z in
    if reset && negb is_new then ret tt
    else
      let* (buf, n) := _log_prefix (uninit 256) 256 LOG_NOTICE in
      let '(buf, _) :=
        tor_snprintf buf n (256 - n)
          ("Tor " +:+ VERSION env +:+ " opening "
           +:+ (if is_new then "new " else "") +:+ "log file."
           +:+ String.String LF "") in
      fputs (c_str buf 0) f;;
      ret tt.

(** *** [format_msg]

    It answers the buffer and the offset of the first character of the
    message portion. *)
Definition format_msg (buf : list ascii) (buf_len : nat) (severity : Z)
    (funcname : option string) (format : string) : M (list ascii * nat) :=
  emit EFormatMsg;;
  let buf_len := buf_len - 2 in
  let* (buf, n) := _log_prefix buf buf_len severity in
  let end_of_prefix := n in
  let '(buf, n) :=
    match funcname with
    | Some fn =>
        let '(buf, r) := tor_snprintf buf n (buf_len - n) (fn +:+ "(): ") in
        if (r <? 0)%Z then (buf, strlen buf 0) else (buf, n + Z.to_nat r)
    | None => (buf, n)
    end in
  let '(buf, r) := tor_vsnprintf buf n (buf_len - n) format in
  let '(buf, n) :=
    if (r <? 0)%Z then
      (strlcpy buf (buf_len - TRUNCATED_STR_LEN - 1) TRUNCATED_STR
         (buf_len - (buf_len - TRUNCATED_STR_LEN - 1)),
       buf_len - 2)
    else (buf, n + Z.to_nat r) in
  let buf := <[n := LF]> buf in
  let buf := <[n + 1 := NUL]> buf in
  ret (buf, end_of_prefix).

(** *** [delete_log] and [close_log]

    [victim] is the position of the node.  A position past the end of
    the list is a node that is not in it: [tor_assert(tmpl)] fails. *)
Definition delete_log (victim : nat) : M unit :=
  let* l := get_logfiles in
  match l !! victim with
  | Some _ => put_logfiles (delete victim l)
  | None => abort
  end.

Definition closelog_if_last : M unit := λ st,
  let n := (syslog_count st - 1)%Z in
  let st := set_syslog_count n st in
  if (n =? 0)%Z then Some (tt, add_event ECloselog st) else Some (tt, st).

Definition close_log (victim : logfile_t) : M unit :=
  match needs_close victim, file victim with
  | true, Some f => fclose f;; ret tt
  | _, _ => if is_syslog victim then closelog_if_last else ret tt
  end.

(** *** [logv]

    [logv_body] is the body of the [while] loop: [l] holds the fields of
    the node under the cursor [lf], [i] is its position in [logfiles],
    and [formatted] is the buffer with the [end_of_prefix] offset once
    [format_msg] has run.  It answers the position of the next cursor:
    [S i] for [lf = lf->next], and [i] once the node is deleted, since
    the node that followed has moved up.  [format] stands for the format
    with its arguments, which [assert(format)] makes not [NULL]. *)
Definition logv_body (severity : Z) (funcname : option string) (format : string)
    (l : logfile_t) (i : nat) (formatted : option (list ascii * nat))
  : M (nat * option (list ascii * nat)) :=
  if (severity >? loglevel l)%Z || (severity <? max_loglevel l)%Z then
    ret (S i, formatted)
  else if negb (bool_decide (is_Some (file l)) || is_syslog l
                || bool_decide (is_Some (callback l))) then
    ret (S i, formatted)
  else
    let* fm :=
      match formatted with
      | Some fm => ret fm
      | None => format_msg (uninit LOGV_BUF_SIZE) LOGV_BUF_SIZE severity funcname format
      end in
    let '(buf, end_of_prefix) := fm in
    if is_syslog l then
      emit (ESyslog severity (c_str buf end_of_prefix));;
      ret (S i, Some fm)
    else
      match callback l with
      | Some cb =>
          emit (ECallback cb severity (c_str buf end_of_prefix));;
          ret (S i, Some fm)
      | None =>
          let* f := assert_some (file l) in
          let* wrote := fputs (c_str buf 0) f in
          let* ok := if wrote then fflush f else ret false in
          if ok then ret (S i, Some fm)
          else delete_log i;; ret (i, Some fm)
      end.

(** The loop: [lf] is the chain of nodes from the cursor on. *)
Fixpoint logv_loop (severity : Z) (funcname : option string) (format : string)
    (lf : list logfile_t) (i : nat) (formatted : option (list ascii * nat))
  : M unit :=
  match lf with
  | [] => ret tt
  | l :: next =>
      let* (i, formatted) := logv_body severity funcname format l i formatted in
      logv_loop severity funcname format next i formatted
  end.

Definition logv (severity : Z) (funcname : option string) (format : string)
  : M unit :=
  let* lf := get_logfiles in
  logv_loop severity funcname format lf 0 None.

Definition _log (severity : Z) (format : string) : M unit :=
  logv severity None format.

Definition _log_fn (severity : Z) (fn : string) (format : string) : M unit :=
  logv severity (Some fn) format.

(** *** [close_logs] *)

Fixpoint close_logs_loop (l : list logfile_t) : M unit :=
  match l with
  | [] => ret tt
  | victim :: next =>
      put_logfiles next;;
      close_log victim;;
      close_logs_loop next
  end.

Definition close_logs : M unit :=
  let* l := get_logfiles in close_logs_loop l.

(** *** [reset_log] and [reset_logs]

    [reset_log] works on the node at position [i], whose fields are
    [lf]; it answers [0], or [-1] on error. *)
Definition reset_log (i : nat) (lf : logfile_t) : M Z :=
  if needs_close lf then
    let* f := assert_some (file lf) in
    let* closed := fclose f in
    if negb closed then ret (-1)%Z
    else
      let* r := fopen (filename lf) in
      let* l := get_logfiles in
      put_logfiles (<[i := set_file r lf]> l);;
      match r with
      | None => ret (-1)%Z
      | Some _ => log_tor_version (set_file r lf) true;; ret 0%Z
      end
  else ret 0%Z.

Fixpoint reset_logs_loop (lf : list logfile_t) (i : nat) : M unit :=
  match lf with
  | [] => ret tt
  | l :: next =>
      let* r := reset_log i l in
      if negb (r =? 0)%Z then
        delete_log i;;
        reset_logs_loop next i
      else reset_logs_loop next (S i)
  end.

Definition reset_logs : M unit :=
  let* lf := get_logfiles in reset_logs_loop lf 0.

(** *** Registration

    [tor_malloc_zero] gives a node whose fields are all zero. *)

Definition add_stream_log (loglevelMin loglevelMax : Z) (name : string)
    (stream : option FILE) : M unit :=
  let lf :=
    {| filename := name; file := stream; needs_close := false;
       loglevel := loglevelMin; max_loglevel := loglevelMax;
       is_temporary := false; is_syslog := false; callback := None |} in
  let* l := get_logfiles in
  put_logfiles (lf :: l).

(** An assignment through the head pointer [logfiles], which must not
    be [NULL]. *)
Definition update_head (f : logfile_t → logfile_t) : M unit :=
  let* l := get_logfiles in
  match l with
  | [] => abort
  | lf :: next => put_logfiles (f lf :: next)
  end.

Definition head_logfile : M logfile_t :=
  let* l := get_logfiles in assert_some (head l).

Definition add_temp_log : M unit :=
  add_stream_log LOG_INFO LOG_ERR "<temp>" (Some stdout);;
  update_head (set_is_temporary true).

Definition add_callback_log (loglevelMin loglevelMax : Z) (cb : option log_callback)
  : M Z :=
  let lf :=
    {| filename := "<callback>"; file := None; needs_close := false;
       loglevel := loglevelMin; max_loglevel := loglevelMax;
       is_temporary := false; is_syslog := false; callback := cb |} in
  let* l := get_logfiles in
  put_logfiles (lf :: l);;
  ret 0%Z.

Definition add_file_log (loglevelMin loglevelMax : Z) (filename : string) : M Z :=
  let* f := fopen filename in
  match f with
  | None => ret (-1)%Z
  | Some _ =>
      add_stream_log loglevelMin loglevelMax filename f;;
      update_head (set_needs_close true);;
      let* lf := head_logfile in
      log_tor_version lf false;;
      ret 0%Z
  end.

Definition openlog_if_first : M unit := λ st,
  let n := syslog_count st in
  let st := set_syslog_count (n + 1)%Z st in
  if (n =? 0)%Z then Some (tt, add_event EOpenlog st) else Some (tt, st).

Definition add_syslog_log (loglevelMin loglevelMax : Z) : M Z :=
  openlog_if_first;;
  let lf :=
    {| filename := "<syslog>"; file := None; needs_close := false;
       loglevel := loglevelMin; max_loglevel := loglevelMax;
       is_temporary := false; is_syslog := true; callback := None |} in
  let* l := get_logfiles in
  put_logfiles (lf :: l);;
  ret 0%Z.

(** *** Temporary sinks *)

(** [*p] is the node at position [i]; [lf] is the chain from it on. *)
Fixpoint close_temp_logs_loop (lf : list logfile_t) (i : nat) : M unit :=
  match lf with
  | [] => ret tt
  | l :: next =>
      if is_temporary l then
        let* all := get_logfiles in
        put_logfiles (delete i all);;
        close_log l;;
        close_temp_logs_loop next i
      else close_temp_logs_loop next (S i)
  end.

Definition close_temp_logs : M unit :=
  let* lf := get_logfiles in close_temp_logs_loop lf 0.

Definition mark_logs_temp : M unit :=
  let* l := get_logfiles in
  put_logfiles (set_is_temporary true <$> l).

(** *** [get_min_log_level] *)

Definition get_min_log_level : M Z :=
  let* l := get_logfiles in
  ret (foldl (λ min lf, if (loglevel lf >? min)%Z then loglevel lf else min)
         LOG_ERR l).

End Operations.

(** * Specification vocabulary *)

(** The names of the severity scale, as the code has them, and the
    exact-match table from names to severities. *)
Definition severity_names : list string :=
  ["err"; "warn"; "notice"; "info"; "debug"].

Definition severity_of_name (name : string) : Z :=
  if decide (name = "err") then LOG_ERR
  else if decide (name = "warn") then LOG_WARN
  else if decide (name = "notice") then LOG_NOTICE
  else if decide (name = "info") then LOG_INFO
  else if decide (name = "debug") then LOG_DEBUG
  else (-1)%Z.

(** ** Dispatch *)

(** Where a sink delivers: [logv] looks at the syslog flag first, then
    at the callback, then at the stream. *)
Inductive target : Type :=
| TFile (f : FILE)
| TSyslog
| TCallback (cb : log_callback).

Definition target_of (lf : logfile_t) : option target :=
  if is_syslog lf then Some TSyslog
  else match callback lf with
       | Some cb => Some (TCallback cb)
       | None => TFile <$> file lf
       end.


Definition accepts (s : Z) (lf : logfile_t) : bool :=
  bool_decide (max_loglevel lf ≤ s)%Z && bool_decide (s ≤ loglevel lf)%Z.

(** The sink takes the message: it is in band and has somewhere to
    deliver. *)
Definition takes (s : Z) (lf : logfile_t) : option target :=
  if accepts s lf then target_of lf else None.

(** The target an event delivers a message to, if it is a delivery. *)
Definition delivery (e : event) : option target :=
  match e with
  | EFputs _ f _ => Some (TFile f)
  | ESyslog _ _ => Some TSyslog
  | ECallback cb _ _ => Some (TCallback cb)
  | _ => None
  end.

Definition deliveries (evs : list event) : list target := omap delivery evs.

(** The events of [st'] that came after those of [st]. *)
Definition new_events (st st' : state) : list event :=
  drop (length (trace st)) (trace st').

(** What one turn of the dispatch loop does with a sink, [record] being
    the whole rendered record and [text] its message portion: the calls
    made, and the sink if it stays in the registry. *)
Inductive visit (s : Z) (record text : string) (lf : logfile_t)
  : list event → option logfile_t → Prop :=
| visit_skip :
    takes s lf = None → visit s record text lf [] (Some lf)
| visit_syslog :
    takes s lf = Some TSyslog →
    visit s record text lf [ESyslog s text] (Some lf)
| visit_callback cb :
    takes s lf = Some (TCallback cb) →
    visit s record text lf [ECallback cb s text] (Some lf)
| visit_file f :
    takes s lf = Some (TFile f) →
    visit s record text lf [EFputs record f true; EFflush f true] (Some lf)
| visit_fputs_failed f :
    takes s lf = Some (TFile f) →
    visit s record text lf [EFputs record f false] None
| visit_fflush_failed f :
    takes s lf = Some (TFile f) →
    visit s record text lf [EFputs record f true; EFflush f false] None.

(** A call that writes to a file, or flushes it, failed. *)
Definition is_failure (e : event) : Prop :=
  match e with
  | EFputs _ _ ok => ok = false
  | EFflush _ ok => ok = false
  | _ => False
  end.

Definition write_failed (evs : list event) : Prop := Exists is_failure evs.

(** The events of the formatter. *)
Definition is_format (e : event) : bool :=
  match e with EFormatMsg => true | _ => false end.

Definition format_calls (evs : list event) : nat :=
  length (filter (λ e, is_format e = true) evs).

(** The whole record and its message portion, once formatted. *)
Definition record_of (fm : option (list ascii * nat)) : string :=
  match fm with Some (buf, _) => c_str buf 0 | None => "" end.

Definition text_of (fm : option (list ascii * nat)) : string :=
  match fm with Some (buf, end_of_prefix) => c_str buf end_of_prefix | None => "" end.

(** The event hands out the record [record], or its message portion
    [text] at priority [s], if it is a delivery at all. *)
Definition consumes (s : Z) (record text : string) (e : event) : Prop :=
  match e with
  | EFputs r _ _ => r = record
  | ESyslog p t => p = s ∧ t = text
  | ECallback _ p t => p = s ∧ t = text
  | _ => True
  end.

(** ** Release of a sink *)

(** The handle a sink owns, which [close_log] closes. *)
Definition owned_handle (lf : logfile_t) : option FILE :=
  if needs_close lf then file lf else None.

(** The sink holds a reference on the syslog facility, which
    [close_log] gives back. *)
Definition syslog_ref (lf : logfile_t) : bool :=
  match owned_handle lf with Some _ => false | None => is_syslog lf end.

Definition syslog_refs (l : list logfile_t) : Z :=
  Z.of_nat (length (filter (λ lf, syslog_ref lf = true) l)).

(** The handles that the events close. *)
Definition closed_handles (evs : list event) : list FILE :=
  omap (λ e, match e with EFclose f _ => Some f | _ => None end) evs.

(** ** Registration requests *)

Inductive registration : Type :=
| AddStream (loglevelMin loglevelMax : Z) (name : string) (stream : option FILE)
| AddTemp
| AddCallback (loglevelMin loglevelMax : Z) (cb : option log_callback)
| AddFile (loglevelMin loglevelMax : Z) (filename : string)
| AddSyslog (loglevelMin loglevelMax : Z).

Definition register (env : env_t) (r : registration) : M unit :=
  match r with
  | AddStream min max name stream => add_stream_log min max name stream
  | AddTemp => add_temp_log
  | AddCallback min max cb => add_callback_log min max cb;; ret tt
  | AddFile min max filename => add_file_log env min max filename;; ret tt
  | AddSyslog min max => add_syslog_log min max;; ret tt
  end.

Fixpoint register_all (env : env_t) (rs : list registration) : M unit :=
  match rs with
  | [] => ret tt
  | r :: rs => register env r;; register_all env rs
  end.

(** ** The banner of a log file *)

(** What [_log_prefix] leaves in the buffer, and the length it
    answers, at the time [sec], [usec] and for the severity named
    [sev]. *)
Definition prefix_at (env : env_t) (sec usec : Z) (buf : list ascii)
    (buf_len : nat) (sev : string) : list ascii * nat :=
  let '(buf, n) := strftime buf 0 buf_len (os_strftime env sec) in
  let '(buf, r) :=
    tor_snprintf buf n (buf_len - n)
      ("." +:+ fmt_ld_prec3 (usec `quot` 1000) +:+ " [" +:+ sev +:+ "] ") in
  if (r <? 0)%Z then (buf, buf_len - 1) else (buf, n + Z.to_nat r).

(** The line [log_tor_version] builds in its 256-character buffer. *)
Definition banner_record (env : env_t) (sec usec : Z) (is_new : bool) : string :=
  let '(buf, n) := prefix_at env sec usec (uninit 256) 256 "notice" in
  let '(buf, _) :=
    tor_snprintf buf n (256 - n)
      ("Tor " +:+ VERSION env +:+ " opening "
       +:+ (if is_new then "new " else "") +:+ "log file."
       +:+ String.String LF "") in
  c_str buf 0.

(** The prefix [_log_prefix] renders, its buffer permitting. *)
Definition prefix_text (env : env_t) (sec usec : Z) (sev : string) : string :=
  os_strftime env sec +:+ "." +:+ fmt_ld_prec3 (usec `quot` 1000)
  +:+ " [" +:+ sev +:+ "] ".

(** The banner, spelled out. *)
Definition banner_line (env : env_t) (sec usec : Z) (is_new : bool) : string :=
  prefix_text env sec usec "notice"
  +:+ "Tor " +:+ VERSION env +:+ " opening "
  +:+ (if is_new then "new " else "") +:+ "log file." +:+ String.String LF "".

(** The calls [log_tor_version] makes for a sink that owns the handle
    [f] and is not temporary: it asks for the offset [pos]; on a reset
    of a file that is not empty it stops there, otherwise it writes the
    banner. *)
Inductive opening (env : env_t) (f : FILE) (reset : bool) : list event → Prop :=
| opening_quiet pos :
    reset = true → pos ≠ 0%Z →
    opening env f reset [EFtell f pos]
| opening_banner pos sec usec ok :
    (reset = false ∨ pos = 0%Z) →
    opening env f reset
      [EFtell f pos; EGettimeofday sec usec;
       EFputs (banner_record env sec usec (bool_decide (pos = 0%Z))) f ok].

(** ** Rotation *)

(** What [reset_logs] does with one sink: the calls made, and the sink
    if it stays in the registry.  A sink that owns no handle is left
    alone.  The handle of a sink that owns one is closed; if that
    succeeds the path is opened again for appending; if that succeeds
    too, the sink stays with its new handle, and [log_tor_version] looks
    at the file unless the sink is temporary. *)
Inductive rotation (env : env_t) (lf : logfile_t)
  : list event → option logfile_t → Prop :=
| rotation_not_owned :
    needs_close lf = false →
    rotation env lf [] (Some lf)
| rotation_close_failed f :
    needs_close lf = true → file lf = Some f →
    rotation env lf [EFclose f false] None
| rotation_open_failed f :
    needs_close lf = true → file lf = Some f →
    rotation env lf [EFclose f true; EFopen (filename lf) None] None
| rotation_reopened f f' evs :
    needs_close lf = true → file lf = Some f →
    (if is_temporary lf then evs = [] else opening env f' true evs) →
    rotation env lf
      (EFclose f true :: EFopen (filename lf) (Some f') :: evs)
      (Some (set_file (Some f') lf)).

(** Every sink that is to be closed has a stream: registration sets
    [needs_close] on open files only. *)
Definition owned_have_handles (l : list logfile_t) : Prop :=
  Forall (λ lf, needs_close lf = true → is_Some (file lf)) l.

(** ** Buffers that hold a C string *)

Definition nul_free (l : list ascii) : Prop := Forall (λ c, c ≠ NUL) l.

(** The buffer starts with the characters [s] and a terminator: the C
    string at its start is [s]. *)
Definition holds (buf s : list ascii) : Prop :=
  nul_free s ∧ ∃ rest, buf = s ++ NUL :: rest.

(** ** The text of a record *)

Abbreviation chars := String.list_ascii_of_string.
Abbreviation of_chars := String.string_of_list_ascii.

Definition label_text (funcname : option string) : string :=
  match funcname with
  | Some fn => fn +:+ "(): "
  | None => ""
  end.

(** What [format_msg] makes of the text [t] that the prefix, the label
    and the message expand to, [cap] being the size of the buffer less
    the two characters set aside: the text and a line terminator if the
    text is shorter than [cap]; otherwise the first [cap - 15]
    characters of the text, the first 13 characters of the marker, and a
    line terminator. *)
Definition record_text (cap : nat) (t : string) : string :=
  if String.length t <? cap then t +:+ String.String LF ""
  else of_chars (take (cap - 15) (chars t))
       +:+ "[...truncated" +:+ String.String LF "".

(** ** Worlds and registries to run the operations on *)

(** Every call succeeds, files are empty, the clock stands still. *)
Definition env_ok : env_t :=
  {| VERSION := "0.0.9";
     os_fopen := λ tr _, Some (10 + length tr);
     os_fclose := λ _ _, true;
     os_fputs := λ _ _ _, true;
     os_fflush := λ _ _, true;
     os_ftell := λ _ _, 0%Z;
     os_gettimeofday := λ _, (1102593600, 123456)%Z;
     os_strftime := λ _, "Dec 09 12:00:00" |}.

(** The disk is gone: no file opens, closes or takes a write. *)
Definition env_broken : env_t :=
  {| VERSION := "0.0.9";
     os_fopen := λ _ _, None;
     os_fclose := λ _ _, false;
     os_fputs := λ _ _ _, false;
     os_fflush := λ _ _, false;
     os_ftell := λ _ _, (-1)%Z;
     os_gettimeofday := λ _, (1102593600, 123456)%Z;
     os_strftime := λ _, "Dec 09 12:00:00" |}.

(** Every call succeeds and every file already holds 4096 characters. *)
Definition env_appending : env_t :=
  {| VERSION := "0.0.9";
     os_fopen := λ tr _, Some (10 + length tr);
     os_fclose := λ _ _, true;
     os_fputs := λ _ _ _, true;
     os_fflush := λ _ _, true;
     os_ftell := λ _ _, 4096%Z;
     os_gettimeofday := λ _, (1102593600, 123456)%Z;
     os_strftime := λ _, "Dec 09 12:00:00" |}.

(** Nothing fails but [fclose]. *)
Definition env_close_fails : env_t :=
  {| VERSION := "0.0.9";
     os_fopen := λ tr _, Some (10 + length tr);
     os_fclose := λ _ _, false;
     os_fputs := λ _ _ _, true;
     os_fflush := λ _ _, true;
     os_ftell := λ _ _, 0%Z;
     os_gettimeofday := λ _, (1102593600, 123456)%Z;
     os_strftime := λ _, "Dec 09 12:00:00" |}.


(** A message of 10100 characters, longer than the buffer of [logv]. *)
Definition long_message : string :=
  String.string_of_list_ascii (replicate 10100 "x"%char).

(** The last [n] characters of a string. *)
Definition string_suffix (n : nat) (s : string) : string :=
  String.substring (String.length s - n) n s.

Definition empty_state : state :=
  {| logfiles := []; syslog_count := 0; trace := [] |}.

Definition file_sink (min max : Z) (name : string) (f : FILE) (owned : bool)
  : logfile_t :=
  {| filename := name; file := Some f; needs_close := owned;
     loglevel := min; max_loglevel := max;
     is_temporary := false; is_syslog := false; callback := None |}.

Definition callback_sink (min max : Z) (cb : log_callback) : logfile_t :=
  {| filename := "<callback>"; file := None; needs_close := false;
     loglevel := min; max_loglevel := max;
     is_temporary := false; is_syslog := false; callback := Some cb |}.

(** A file sink for Info and above, and a callback for errors only. *)
Definition two_sinks : state :=
  {| logfiles := [file_sink LOG_INFO LOG_ERR "/var/log/tor/log" 5 true;
                  callback_sink LOG_ERR LOG_ERR 9];
     syslog_count := 0; trace := [] |}.

(** ** Sequences of operations *)

(** The operations of the interface of [log.c]. *)
Inductive operation : Type :=
| OpRegister (r : registration)
| OpLog (severity : Z) (funcname : option string) (format : string)
| OpResetLogs
| OpMarkTemp
| OpCloseTemp
| OpCloseLogs.

Definition perform (env : env_t) (o : operation) : M unit :=
  match o with
  | OpRegister r => register env r
  | OpLog severity funcname format => logv env severity funcname format
  | OpResetLogs => reset_logs env
  | OpMarkTemp => mark_logs_temp
  | OpCloseTemp => close_temp_logs env
  | OpCloseLogs => close_logs env
  end.

Fixpoint perform_all (env : env_t) (ops : list operation) : M unit :=
  match ops with
  | [] => ret tt
  | o :: ops => perform env o;; perform_all env ops
  end.

(** A message is logged at a severity of the scale. *)
Definition well_formed (o : operation) : Prop :=
  match o with
  | OpLog severity _ _ => is_severity severity
  | _ => True
  end.

(** The calls to [openlog] made so far, less the calls to [closelog]. *)
Definition facility_step (e : event) : Z :=
  match e with
  | EOpenlog => 1
  | ECloselog => -1
  | _ => 0
  end.

Definition facility (tr : list event) : Z :=
  foldr (λ e n, (facility_step e + n)%Z) 0%Z tr.

(** The state of [log.c] is consistent: the sinks to be closed have a
    stream, [syslog_count] counts the sinks that hold a reference on the
    syslog facility, and the facility is open exactly when there are
    such sinks. *)
Definition consistent (st : state) : Prop :=
  owned_have_handles (logfiles st)
  ∧ syslog_count st = syslog_refs (logfiles st)
  ∧ facility (trace st) = (if (0 <? syslog_count st)%Z then 1 else 0)%Z.

(** The sink a registration request adds, [opened] being what [fopen]
    answers to an [AddFile] request. *)
Definition registered (r : registration) (opened : option FILE)
  : option logfile_t :=
  match r with
  | AddStream min max name stream =>
      Some {| filename := name; file := stream; needs_close := false;
              loglevel := min; max_loglevel := max;
              is_temporary := false; is_syslog := false; callback := None |}
  | AddTemp =>
      Some {| filename := "<temp>"; file := Some stdout; needs_close := false;
              loglevel := LOG_INFO; max_loglevel := LOG_ERR;
              is_temporary := true; is_syslog := false; callback := None |}
  | AddCallback min max cb =>
      Some {| filename := "<callback>"; file := None; needs_close := false;
              loglevel := min; max_loglevel := max;
              is_temporary := false; is_syslog := false; callback := cb |}
  | AddFile min max path =>
      match opened with
      | Some f => Some (file_sink min max path f true)
      | None => None
      end
  | AddSyslog min max =>
      Some {| filename := "<syslog>"; file := None; needs_close := false;
              loglevel := min; max_loglevel := max;
              is_temporary := false; is_syslog := true; callback := None |}
  end.

(** What [fopen] answers to a registration request, if it asks. *)
Definition request_opens (env : env_t) (tr : list event) (r : registration)
  : option FILE :=
  match r with
  | AddFile _ _ path => os_fopen env tr path
  | _ => None
  end.

(** The calls a dispatch may make: to the clock, and to deliver. *)
Definition is_dispatch_call (e : event) : Prop :=
  match e with
  | EFormatMsg | EGettimeofday _ _ | EFputs _ _ _ | EFflush _ _
  | ESyslog _ _ | ECallback _ _ _ => True
  | _ => False
  end.

(** A well-formed sequence, to run the operations on. *)
Definition session : list operation :=
  [OpRegister AddTemp;
   OpRegister (AddSyslog LOG_NOTICE LOG_ERR);
   OpLog LOG_NOTICE None "Tor is starting.";
   OpMarkTemp;
   OpRegister (AddFile LOG_INFO LOG_ERR "/var/log/tor/log");
   OpCloseTemp;
   OpLog LOG_WARN (Some "main") "Clock jumped.";
   OpResetLogs;
   OpCloseLogs].

(** * The severity scale *)

Lemma tolower_range c : (0 ≤ tolower c < 256)%Z.
Proof.
  unfold tolower.
  pose proof (nat_ascii_bounded c) as Hb.
  destruct (_ && _) eqn:E; [apply andb_true_iff in E as [?%Z.leb_le ?%Z.leb_le]|]; lia.
Qed.

Lemma lower_char_inj c1 c2 :
  ascii_of_nat (Z.to_nat (tolower c1)) = ascii_of_nat (Z.to_nat (tolower c2)) →
  tolower c1 = tolower c2.
Proof.
  intros H. pose proof (tolower_range c1). pose proof (tolower_range c2).
  apply (f_equal nat_of_ascii) in H.
  rewrite !nat_ascii_embedding in H by lia. lia.
Qed.

Lemma tolower_0 c : tolower c = 0%Z ↔ c = NUL.
Proof.
  split; [|by intros ->].
  unfold tolower. intros H.
  destruct (_ && _) eqn:E;
    [apply andb_true_iff in E as [?%Z.leb_le ?%Z.leb_le]; lia|].
  rewrite <- (ascii_nat_embedding c).
  replace (nat_of_ascii c) with 0%nat by lia. done.
Qed.

Lemma strcasecmp_lowercase s1 s2 :
  strcasecmp s1 s2 = 0%Z ↔ lowercase (cstring s1) = lowercase (cstring s2).
Proof.
  revert s2. induction s1 as [|c1 r1 IH]; intros [|c2 r2]; simpl.
  - done.
  - destruct (Ascii.eqb_spec c2 NUL) as [->|Hn]; [done|].
    split; [|done]. intros H. destruct Hn. apply tolower_0. lia.
  - destruct (Ascii.eqb_spec c1 NUL) as [->|Hn]; [done|].
    split; [|done]. intros H. destruct Hn. by apply tolower_0.
  - destruct (Z.eqb_spec (tolower c1 - tolower c2) 0) as [Hd|Hd].
    + destruct (Z.eqb_spec (tolower c1) 0) as [H1|H1].
      * assert (tolower c2 = 0%Z) as H2 by lia.
        apply tolower_0 in H1 as ->. apply tolower_0 in H2 as ->. done.
      * assert (tolower c2 ≠ 0%Z) as H2 by lia.
        rewrite tolower_0 in H1. rewrite tolower_0 in H2.
        destruct (Ascii.eqb_spec c1 NUL); [done|].
        destruct (Ascii.eqb_spec c2 NUL); [done|].
        simpl. rewrite IH. split; [intros ->; f_equal; f_equal; f_equal; lia|].
        by intros [= _ ?].
    + split; [lia|]. intros H. destruct Hd.
      destruct (Ascii.eqb_spec c1 NUL) as [->|]; destruct (Ascii.eqb_spec c2 NUL) as [->|];
        simpl in H; try done.
      injection H as H _. apply lower_char_inj in H. lia.
Qed.

Lemma strcasecmp_name level name :
  lowercase (cstring name) = name →
  (strcasecmp level name =? 0)%Z = bool_decide (lowercase (cstring level) = name).
Proof.
  intros Hn. destruct (Z.eqb_spec (strcasecmp level name) 0) as [H|H];
    rewrite strcasecmp_lowercase, Hn in H.
  - by rewrite bool_decide_eq_true_2.
  - by rewrite bool_decide_eq_false_2.
Qed.

Lemma parse_log_level_table level :
  parse_log_level level = severity_of_name (lowercase (cstring level)).
Proof.
  unfold parse_log_level, severity_of_name.
  rewrite !strcasecmp_name by (by vm_compute).
  repeat case_decide; by repeat case_bool_decide.
Qed.

(** C5, counterexample: the name of the most critical severity is not
    "error": rendering [LOG_ERR] does not yield "error", and parsing
    "error" does not yield [LOG_ERR]. *)
Lemma error_is_not_named_error :
  log_level_to_string LOG_ERR ≠ Some "error" ∧ parse_log_level "error" ≠ LOG_ERR.
Proof. split; vm_compute; discriminate. Qed.

(** C5, amended: the scale maps bidirectionally between the five
    severities and the names err, warn, notice, info, debug.  Rendering
    each severity yields its name, parsing each name yields its
    severity, parsing ignores the case of ASCII letters, and parsing
    anything that is not one of the five names yields [-1]. *)
Theorem severity_names_bidirectional :
  (log_level_to_string LOG_ERR = Some "err"
   ∧ log_level_to_string LOG_WARN = Some "warn"
   ∧ log_level_to_string LOG_NOTICE = Some "notice"
   ∧ log_level_to_string LOG_INFO = Some "info"
   ∧ log_level_to_string LOG_DEBUG = Some "debug")
  ∧ (parse_log_level "err" = LOG_ERR
     ∧ parse_log_level "warn" = LOG_WARN
     ∧ parse_log_level "notice" = LOG_NOTICE
     ∧ parse_log_level "info" = LOG_INFO
     ∧ parse_log_level "debug" = LOG_DEBUG)
  ∧ (∀ level,
       parse_log_level level = severity_of_name (lowercase (cstring level)))
  ∧ (∀ level,
       lowercase (cstring level) ∉ severity_names →
       parse_log_level level = (-1)%Z).
Proof.
  split_and!; try reflexivity.
  - apply parse_log_level_table.
  - intros level Hn. rewrite parse_log_level_table.
    unfold severity_of_name, severity_names in *.
    repeat case_decide; try done; destruct Hn; set_solver.
Qed.

(** * The least critical active threshold *)

Lemma foldr_max_base (k : list Z) (a b : Z) :
  Z.max a (foldr Z.max b k) = foldr Z.max (Z.max a b) k.
Proof. induction k as [|x k IH]; simpl; [done|]. rewrite <- IH. lia. Qed.

Lemma foldl_min_level (l : list logfile_t) (m : Z) :
  foldl (λ min lf, if (loglevel lf >? min)%Z then loglevel lf else min) m l
  = foldr Z.max m (loglevel <$> l).
Proof.
  revert m. induction l as [|lf l IH]; intros m; simpl; [done|].
  rewrite IH, foldr_max_base.
  destruct (Z.gtb_spec (loglevel lf) m); f_equal; lia.
Qed.

Lemma foldr_max_cons (x : Z) (k : list Z) (b : Z) :
  foldr Z.max b (x :: k) = Z.max x (foldr Z.max b k).
Proof. done. Qed.

Lemma foldr_max_lower (k : list Z) (b : Z) : (b ≤ foldr Z.max b k)%Z.
Proof. induction k; rewrite ?foldr_max_cons; [done|lia]. Qed.

Lemma foldr_max_upper (k : list Z) (b : Z) :
  Forall (λ x, (x ≤ foldr Z.max b k)%Z) k.
Proof.
  induction k as [|x k IH]; constructor; rewrite foldr_max_cons; [lia|].
  eapply Forall_impl; [exact IH|]. simpl. intros; lia.
Qed.

Lemma foldr_max_attained (k : list Z) (b : Z) :
  foldr Z.max b k = b ∨ foldr Z.max b k ∈ k.
Proof.
  induction k as [|x k IH]; [by left|]. rewrite foldr_max_cons.
  destruct (Z.max_spec x (foldr Z.max b k)) as [[? ->]|[? ->]].
  - destruct IH as [->|?]; [by left|right; by constructor].
  - right. constructor.
Qed.

(** C10: [get_min_log_level] answers [LOG_ERR] on an empty registry;
    in general it answers the largest [loglevel] of the registered
    sinks, floored at [LOG_ERR]: a value that is never below [LOG_ERR]
    and never below the bound of a registered sink. *)
Theorem get_min_log_level_max (st : state) :
  get_min_log_level (set_logfiles [] st) = Some (LOG_ERR, set_logfiles [] st)
  ∧ get_min_log_level st
    = Some (foldr Z.max LOG_ERR (loglevel <$> logfiles st), st)
  ∧ (LOG_ERR ≤ foldr Z.max LOG_ERR (loglevel <$> logfiles st))%Z
  ∧ Forall (λ lf, (loglevel lf ≤ foldr Z.max LOG_ERR (loglevel <$> logfiles st))%Z)
      (logfiles st)
  ∧ (foldr Z.max LOG_ERR (loglevel <$> logfiles st) = LOG_ERR
     ∨ foldr Z.max LOG_ERR (loglevel <$> logfiles st) ∈ (loglevel <$> logfiles st)).
Proof.
  split_and!.
  - done.
  - unfold get_min_log_level, bind, get_logfiles, ret.
    by rewrite foldl_min_level.
  - apply foldr_max_lower.
  - pose proof (foldr_max_upper (loglevel <$> logfiles st) LOG_ERR) as H.
    by rewrite Forall_fmap in H.
  - apply foldr_max_attained.
Qed.

(** * Buffers *)

Lemma until_nul_app s rest :
  nul_free s → until_nul (s ++ NUL :: rest) = s.
Proof.
  induction 1 as [|c s Hc _ IH]; simpl; [done|].
  destruct (Ascii.eqb_spec c NUL); [done|]. by rewrite IH.
Qed.

Lemma holds_length buf s : holds buf s → length s < length buf.
Proof. intros [_ [rest ->]]. rewrite length_app. simpl. lia. Qed.

Lemma holds_c_str buf s :
  holds buf s → c_str buf 0 = String.string_of_list_ascii s.
Proof.
  intros [Hs [rest ->]]. unfold c_str. by rewrite drop_0, until_nul_app.
Qed.

Lemma holds_strlen buf s : holds buf s → strlen buf 0 = length s.
Proof.
  intros [Hs [rest ->]]. unfold strlen. by rewrite drop_0, until_nul_app.
Qed.

Lemma nul_free_forallb l :
  forallb (λ c, negb (Ascii.eqb c NUL)) l = true → nul_free l.
Proof.
  induction l as [|c l IH]; simpl; [constructor|].
  intros [Hc Hl]%andb_true_iff. constructor; [|by apply IH].
  by destruct (Ascii.eqb_spec c NUL).
Qed.

Lemma nul_free_app s t : nul_free (s ++ t) ↔ nul_free s ∧ nul_free t.
Proof. apply Forall_app. Qed.

Lemma nul_free_take n s : nul_free s → nul_free (take n s).
Proof. apply Forall_take. Qed.

Lemma nul_free_drop n s : nul_free s → nul_free (drop n s).
Proof. apply Forall_drop. Qed.

Lemma holds_c_str_at buf s k :
  holds buf s → k ≤ length s →
  c_str buf k = String.string_of_list_ascii (drop k s).
Proof.
  intros [Hs [rest ->]] Hk. unfold c_str.
  rewrite drop_app_le by done.
  by rewrite until_nul_app by by apply nul_free_drop.
Qed.

Lemma holds_take buf s off : holds buf s → off ≤ length s → take off buf = take off s.
Proof. intros [_ [rest ->]] Hk. by rewrite take_app_le. Qed.

Lemma length_poke off bytes buf :
  off + length bytes ≤ length buf → length (poke off bytes buf) = length buf.
Proof.
  intros H. unfold poke. rewrite !length_app, length_take, length_drop. lia.
Qed.

(** Storing a terminated string inside the string that the buffer
    holds, or right at its end. *)
Lemma holds_poke buf s off t :
  holds buf s → off ≤ length s → nul_free t →
  holds (poke off (t ++ [NUL]) buf) (take off s ++ t).
Proof.
  intros Hb Hoff Ht. split.
  - apply nul_free_app. split; [|done]. apply nul_free_take, Hb.
  - unfold poke. rewrite (holds_take _ _ _ Hb Hoff).
    eexists. by rewrite <- !app_assoc.
Qed.

Lemma holds_insert_nul buf s j :
  holds buf s → length s ≤ j → holds (<[j := NUL]> buf) s.
Proof.
  intros [Hs [rest ->]] Hj. split; [done|].
  rewrite insert_app_r_alt by done.
  destruct (j - length s) as [|k]; simpl; by eexists.
Qed.

Lemma holds_insert buf s i c :
  holds buf s → i < length s → c ≠ NUL → holds (<[i := c]> buf) (<[i := c]> s).
Proof.
  intros [Hs [rest ->]] Hi Hc. split.
  - by apply Forall_insert.
  - rewrite insert_app_l by done. by eexists.
Qed.

(** The two stores that end [format_msg]: the line terminator over the
    terminator of the string, and a terminator after it. *)
Lemma holds_terminate buf s :
  holds buf s → length s + 1 < length buf →
  holds (<[length s + 1 := NUL]> (<[length s := LF]> buf)) (s ++ [LF]).
Proof.
  intros [Hs [rest ->]] Hlen. split.
  - apply nul_free_app. split; [done|]. by repeat constructor.
  - rewrite length_app in Hlen. simpl in Hlen.
    destruct rest as [|c rest]; [simpl in Hlen; lia|].
    rewrite (insert_app_r_alt s _ (length s)), Nat.sub_diag by done. simpl.
    rewrite (insert_app_r_alt s _ (length s + 1)) by lia.
    replace (length s + 1 - length s) with 1 by lia. simpl.
    exists rest. by rewrite <- app_assoc.
Qed.

Lemma length_uninit n : length (uninit n) = n.
Proof. apply length_replicate. Qed.

Lemma holds_uninit n : 0 < n → holds (uninit n) [].
Proof.
  intros Hn. split; [constructor|].
  destruct n; [lia|]. by eexists.
Qed.

Lemma length_chars s : length (chars s) = String.length s.
Proof. induction s; simpl; congruence. Qed.

Lemma chars_app s1 s2 : chars (s1 +:+ s2) = chars s1 ++ chars s2.
Proof. induction s1 as [|c s1 IH]; simpl; [done|by rewrite IH]. Qed.

Lemma of_chars_app l1 l2 : of_chars (l1 ++ l2) = of_chars l1 +:+ of_chars l2.
Proof. induction l1 as [|c l1 IH]; simpl; [done|by rewrite IH]. Qed.

Lemma length_of_chars l : String.length (of_chars l) = length l.
Proof. induction l; simpl; congruence. Qed.

(** [tor_snprintf] at the end of the string the buffer holds, with the
    room that is left below [cap]: the buffer then holds what fits of
    the longer string, and the answer tells whether all of it did. *)
Lemma snprintf_step buf x p cap :
  holds buf x → length x < cap → cap ≤ length buf → nul_free (chars p) →
  ∃ buf' r,
    tor_snprintf buf (length x) (cap - length x) p = (buf', r)
    ∧ holds buf' (take (cap - 1) (x ++ chars p))
    ∧ length buf' = length buf
    ∧ (if (r <? 0)%Z
       then cap ≤ length x + String.length p
            ∧ length (take (cap - 1) (x ++ chars p)) = cap - 1
       else length x + Z.to_nat r = length x + String.length p
            ∧ length x + String.length p < cap
            ∧ take (cap - 1) (x ++ chars p) = x ++ chars p).
Proof.
  intros Hb Hx Hcap Hp. unfold tor_snprintf.
  destruct (Nat.eqb_spec (cap - length x) 0) as [?|_]; [lia|].
  eexists _, _. split; [done|].
  assert (take (cap - 1) (x ++ chars p)
          = take (length x) x ++ take (cap - length x - 1) (chars p)) as ->.
  { rewrite take_app_ge by lia. rewrite (take_ge x) by lia. do 2 f_equal. lia. }
  pose proof (length_take (chars p) (cap - length x - 1)) as Hlt.
  rewrite length_chars in Hlt.
  split_and!.
  - apply holds_insert_nul.
    + apply holds_poke; [done|done|by apply nul_free_take].
    + rewrite length_app, take_ge, Hlt by done. lia.
  - rewrite length_insert, length_poke; [done|].
    rewrite length_app, Hlt. simpl. lia.
  - destruct (Nat.ltb_spec (String.length p) (cap - length x)) as [Hfit|Hover].
    + destruct (Z.ltb_spec (Z.of_nat (String.length p)) 0); [lia|].
      split_and!; [lia|lia|].
      by rewrite !take_ge by (rewrite ?length_chars; lia).
    + simpl. split; [lia|].
      rewrite length_app, take_ge, Hlt by done. lia.
Qed.

Lemma take_take_app {A} (l k : list A) n :
  take n (take n l ++ k) = take n (l ++ k).
Proof.
  destruct (decide (n ≤ length l)).
  - rewrite !take_app_le by (rewrite ?length_take; lia). apply take_idemp.
  - by rewrite (take_ge l) by lia.
Qed.

Lemma holds_poke_0 buf t :
  nul_free t → holds (poke 0 (t ++ [NUL]) buf) t.
Proof.
  intros Ht. split; [done|]. unfold poke. rewrite take_0. simpl.
  eexists. by rewrite <- app_assoc.
Qed.

(** [_log_prefix] leaves its text in the buffer, cut to [cap - 1]
    characters, and answers the length of what it left. *)
Lemma prefix_at_holds env sec usec buf cap sev :
  nul_free (chars (prefix_text env sec usec sev)) →
  String.length (os_strftime env sec) < cap → cap ≤ length buf →
  ∃ buf',
    prefix_at env sec usec buf cap sev
    = (buf', length (take (cap - 1) (chars (prefix_text env sec usec sev))))
    ∧ holds buf' (take (cap - 1) (chars (prefix_text env sec usec sev)))
    ∧ length buf' = length buf.
Proof.
  unfold prefix_text, prefix_at, strftime. intros Hnul Hlen Hcap.
  rewrite chars_app in *. apply nul_free_app in Hnul as [Hstamp Hrest].
  destruct (Nat.ltb_spec (String.length (os_strftime env sec)) cap) as [_|?]; [|lia].
  set (stamp := os_strftime env sec) in *.
  set (rest := "." +:+ _) in *.
  pose proof (holds_poke_0 buf (chars stamp) Hstamp) as Hb.
  assert (length (poke 0 (chars stamp ++ [NUL]) buf) = length buf) as Hl.
  { apply length_poke. rewrite length_app, length_chars. simpl. lia. }
  rewrite <- (length_chars stamp) in Hlen.
  destruct (snprintf_step _ (chars stamp) rest cap Hb Hlen) as
    (buf' & r & E & Hb' & Hl' & Hr); [lia|done|].
  rewrite length_chars in E. rewrite E.
  exists buf'. destruct (r <? 0)%Z.
  - destruct Hr as [_ ->]. split_and!; [done|done|congruence].
  - destruct Hr as (Hn & _ & Heq). rewrite Heq in *.
    rewrite length_app, !length_chars in *.
    split_and!; [by rewrite Hn|done|congruence].
Qed.

Lemma _log_prefix_run env buf buf_len s name st :
  sev_to_string s = Some name →
  _log_prefix env buf buf_len s st
  = Some (prefix_at env (os_gettimeofday env (trace st)).1
            (os_gettimeofday env (trace st)).2 buf buf_len name,
          add_event (EGettimeofday (os_gettimeofday env (trace st)).1
                       (os_gettimeofday env (trace st)).2) st).
Proof.
  intros Hname.
  unfold _log_prefix, prefix_at, bind, tor_gettimeofday, ret. simpl.
  destruct (strftime _ _ _ _) as [b1 n1]. rewrite Hname. simpl.
  destruct (tor_snprintf b1 _ _ _) as [b2 r2].
  by destruct (r2 <? 0)%Z.
Qed.

(** The record [format_msg] leaves in a buffer of [N] characters, when
    the prefix and the label fit with room to spare. *)
Lemma format_msg_record env buf N s sev funcname format st :
  let now := os_gettimeofday env (trace st ++ [EFormatMsg]) in
  let P := prefix_text env now.1 now.2 sev in
  let T := P +:+ label_text funcname +:+ format in
  sev_to_string s = Some sev →
  nul_free (chars T) →
  String.length (P +:+ label_text funcname) + 16 ≤ N - 2 →
  length buf = N →
  ∃ buf',
    format_msg env buf N s funcname format st
    = Some ((buf', String.length P),
            add_event (EGettimeofday now.1 now.2) (add_event EFormatMsg st))
    ∧ c_str buf' 0 = record_text (N - 2) T
    ∧ c_str buf' (String.length P)
      = of_chars (drop (String.length P) (chars (record_text (N - 2) T))).
Proof.
  intros now P T Hsev Hnul Hfit Hlen.
  set (cap := N - 2) in *.
  set (L := label_text funcname) in *.
  assert (String.length (P +:+ L) = String.length P + String.length L) as HPL.
  { by rewrite <- !length_chars, chars_app, length_app. }
  unfold T in Hnul. rewrite !chars_app in Hnul.
  apply nul_free_app in Hnul as [HnP Hnul].
  apply nul_free_app in Hnul as [HnL HnF].
  assert (String.length (os_strftime env now.1) ≤ String.length P) as Hstamp.
  { unfold P, prefix_text. rewrite <- !length_chars, chars_app, length_app. lia. }
  destruct (prefix_at_holds env now.1 now.2 buf cap sev HnP) as (b0 & E0 & H0 & L0);
    [lia|lia|].
  fold P in E0, H0. rewrite take_ge in E0, H0 by (rewrite length_chars; lia).
  rewrite length_chars in E0.
  (* the label *)
  assert (∃ b1,
    match funcname with
    | Some fn =>
        let '(buf, r) := tor_snprintf b0 (String.length P) (cap - String.length P)
                           (fn +:+ "(): ") in
        if (r <? 0)%Z then (buf, strlen buf 0)
        else (buf, String.length P + Z.to_nat r)
    | None => (b0, String.length P)
    end = (b1, String.length P + String.length L)
    ∧ holds b1 (chars P ++ chars L) ∧ length b1 = N) as (b1 & E1 & H1 & L1).
  { subst L. destruct funcname as [fn|].
    - change (label_text (Some fn)) with (fn +:+ "(): ") in *.
      pose proof (length_chars P) as HlP.
      destruct (snprintf_step b0 (chars P) (fn +:+ "(): ") cap H0) as
        (b1 & r & E & Hb & Hl & Hr); [lia|lia|done|].
      rewrite HlP in E. rewrite E. exists b1. destruct (r <? 0)%Z; [lia|].
      destruct Hr as (Hn & _ & Heq). rewrite Heq in Hb.
      split_and!; [f_equal; lia|done|congruence].
    - exists b0. change (label_text None) with "" in *. simpl.
      rewrite Nat.add_0_r, app_nil_r. split_and!; [done|done|congruence]. }
  unfold format_msg. unfold bind at 1, emit. unfold bind at 1.
  rewrite (_log_prefix_run env _ _ s sev) by done.
  simpl. fold now. fold cap. rewrite E0. rewrite E1. clear E0 E1 H0 L0 b0.
  (* the message *)
  assert (length (chars P ++ chars L) = String.length P + String.length L) as HlPL.
  { by rewrite length_app, !length_chars. }
  rewrite <- HlPL.
  destruct (snprintf_step b1 (chars P ++ chars L) format cap H1) as
    (b2 & r & E2 & H2 & L2 & Hr); [lia|lia|done|].
  unfold tor_vsnprintf. rewrite E2. clear E2.
  unfold record_text, T.
  rewrite <- !length_chars, !chars_app, !length_app, !length_chars.
  rewrite <- app_assoc in *.
  destruct (r <? 0)%Z.
  - destruct Hr as [Hover Hl2].
    destruct (Nat.ltb_spec (String.length P + (String.length L + String.length format)) cap)
      as [?|_]; [lia|].
    set (TT := chars P ++ chars L ++ chars format) in *.
    assert (cap ≤ length TT) as HTT.
    { unfold TT. rewrite !length_app, !length_chars. lia. }
    unfold strlcpy, TRUNCATED_STR_LEN.
    replace (cap - (cap - 14 - 1)) with 15 by lia.
    replace (cap - 14 - 1) with (cap - 15) by lia.
    change (take (15 - 1) (chars TRUNCATED_STR)) with (chars TRUNCATED_STR).
    cbn [Nat.eqb].
    assert (holds (poke (cap - 15) (chars TRUNCATED_STR ++ [NUL]) b2)
              (take (cap - 15) TT ++ chars TRUNCATED_STR)) as H3.
    { replace (take (cap - 15) TT) with (take (cap - 15) (take (cap - 1) TT))
        by (rewrite take_take; f_equal; lia).
      apply holds_poke; [done|lia|by repeat constructor]. }
    assert (length (take (cap - 15) TT) = cap - 15) as Hl3
      by (rewrite length_take; lia).
    apply (holds_insert _ _ (cap - 2) LF) in H3;
      [|rewrite length_app, Hl3; simpl; lia|done].
    rewrite insert_app_r_alt in H3 by lia.
    rewrite Hl3 in H3. replace (cap - 2 - (cap - 15)) with 13 in H3 by lia.
    apply (holds_insert_nul _ _ (cap - 2 + 1)) in H3;
      [|rewrite length_app, Hl3; simpl; lia].
    eexists. split_and!; [done| |].
    + rewrite (holds_c_str _ _ H3). by rewrite of_chars_app.
    + rewrite (holds_c_str_at _ _ _ H3) by (rewrite length_app, Hl3; lia).
      rewrite chars_app, String.list_ascii_of_string_of_list_ascii.
      done.
  - destruct Hr as (Hn & Hfits & Heq). rewrite Heq in H2.
    destruct (Nat.ltb_spec (String.length P + (String.length L + String.length format)) cap)
      as [_|?]; [|lia].
    set (TT := chars P ++ chars L ++ chars format) in *.
    assert (length TT = String.length P + (String.length L + String.length format))
      as HTT by (unfold TT; by rewrite !length_app, !length_chars).
    replace (String.length P + String.length L + Z.to_nat r) with (length TT)
      by (rewrite length_app, !length_chars in Hn; lia).
    pose proof (holds_terminate b2 TT H2) as H3.
    eexists. split_and!; [done| |].
    + rewrite (holds_c_str _ _ (H3 ltac:(lia))), of_chars_app.
      unfold TT. by rewrite !of_chars_app, !String.string_of_list_ascii_of_string.
    + rewrite (holds_c_str_at _ _ _ (H3 ltac:(lia)))
        by (rewrite length_app; lia).
      rewrite !chars_app. unfold TT. by rewrite <- !app_assoc.
Qed.

Lemma string_app_assoc (a b c : string) : (a +:+ b) +:+ c = a +:+ b +:+ c.
Proof.
  induction a as [|x a IH]; [done|].
  change (String.String x ((a +:+ b) +:+ c) = String.String x (a +:+ b +:+ c)).
  by rewrite IH.
Qed.

(** The record [format_msg] leaves in a buffer of [N] characters, when
    the prefix, the label and the message are C strings that fit
    together. *)
Lemma format_msg_fits env buf N s sev funcname format st :
  let now := os_gettimeofday env (trace st ++ [EFormatMsg]) in
  let P := prefix_text env now.1 now.2 sev in
  let L := label_text funcname in
  sev_to_string s = Some sev →
  nul_free (chars (P +:+ L +:+ format)) →
  String.length (P +:+ L +:+ format) < N - 2 →
  length buf = N →
  ∃ buf',
    format_msg env buf N s funcname format st
    = Some ((buf', String.length P),
            add_event (EGettimeofday now.1 now.2) (add_event EFormatMsg st))
    ∧ c_str buf' 0 = P +:+ L +:+ format +:+ String.String LF ""
    ∧ c_str buf' (String.length P) = L +:+ format +:+ String.String LF "".
Proof.
  intros now P L Hsev Hnul Hfit Hlen.
  set (cap := N - 2) in *.
  rewrite <- length_chars, !chars_app, !length_app, !length_chars in Hfit.
  rewrite !chars_app in Hnul.
  apply nul_free_app in Hnul as [HnP Hnul].
  apply nul_free_app in Hnul as [HnL HnF].
  assert (String.length (os_strftime env now.1) ≤ String.length P) as Hstamp.
  { unfold P, prefix_text. rewrite <- !length_chars, chars_app, length_app. lia. }
  destruct (prefix_at_holds env now.1 now.2 buf cap sev HnP) as (b0 & E0 & H0 & L0);
    [lia|lia|].
  fold P in E0, H0. rewrite take_ge in E0, H0 by (rewrite length_chars; lia).
  rewrite length_chars in E0.
  (* the label *)
  assert (∃ b1,
    match funcname with
    | Some fn =>
        let '(buf, r) := tor_snprintf b0 (String.length P) (cap - String.length P)
                           (fn +:+ "(): ") in
        if (r <? 0)%Z then (buf, strlen buf 0)
        else (buf, String.length P + Z.to_nat r)
    | None => (b0, String.length P)
    end = (b1, String.length P + String.length L)
    ∧ holds b1 (chars P ++ chars L) ∧ length b1 = N) as (b1 & E1 & H1 & L1).
  { subst L. destruct funcname as [fn|].
    - change (label_text (Some fn)) with (fn +:+ "(): ") in *.
      pose proof (length_chars P) as HlP.
      destruct (snprintf_step b0 (chars P) (fn +:+ "(): ") cap H0) as
        (b1 & r & E & Hb & Hl & Hr); [lia|lia|done|].
      rewrite HlP in E. rewrite E. exists b1. destruct (r <? 0)%Z; [lia|].
      destruct Hr as (Hn & _ & Heq). rewrite Heq in Hb.
      split_and!; [f_equal; lia|done|congruence].
    - exists b0. change (label_text None) with "" in *. simpl.
      rewrite Nat.add_0_r, app_nil_r. split_and!; [done|done|congruence]. }
  unfold format_msg. unfold bind at 1, emit. unfold bind at 1.
  rewrite (_log_prefix_run env _ _ s sev) by done.
  simpl. fold now. fold cap. rewrite E0. rewrite E1. clear E0 E1 H0 L0 b0.
  (* the message *)
  assert (length (chars P ++ chars L) = String.length P + String.length L) as HlPL.
  { by rewrite length_app, !length_chars. }
  rewrite <- HlPL.
  destruct (snprintf_step b1 (chars P ++ chars L) format cap H1) as
    (b2 & r & E2 & H2 & L2 & Hr); [lia|lia|done|].
  unfold tor_vsnprintf. rewrite E2. clear E2.
  rewrite <- app_assoc in *.
  destruct (r <? 0)%Z; [lia|].
  destruct Hr as (Hn & Hfits & Heq). rewrite Heq in H2.
  set (TT := chars P ++ chars L ++ chars format) in *.
  assert (length TT = String.length P + (String.length L + String.length format))
    as HTT by (unfold TT; by rewrite !length_app, !length_chars).
  replace (length (chars P ++ chars L) + Z.to_nat r) with (length TT)
    by (rewrite length_app, !length_chars in *; lia).
  pose proof (holds_terminate b2 TT H2) as H3.
  eexists. split_and!; [done| |].
  - rewrite (holds_c_str _ _ (H3 ltac:(lia))), of_chars_app.
    unfold TT. rewrite !of_chars_app, !String.string_of_list_ascii_of_string.
    by rewrite !string_app_assoc.
  - rewrite (holds_c_str_at _ _ _ (H3 ltac:(lia)))
      by (rewrite length_app; lia).
    unfold TT. rewrite <- !app_assoc, <- (length_chars P), drop_app_length.
    by rewrite !of_chars_app, !String.string_of_list_ascii_of_string.
Qed.

(** The banner line, when it is a C string that fits the 256
    characters of the buffer of [log_tor_version]. *)
Lemma banner_record_line env sec usec is_new :
  nul_free (chars (banner_line env sec usec is_new)) →
  String.length (banner_line env sec usec is_new) < 256 →
  banner_record env sec usec is_new = banner_line env sec usec is_new.
Proof.
  unfold banner_record, banner_line.
  set (P := prefix_text env sec usec "notice").
  set (rest := "Tor " +:+ _).
  intros Hnul Hlen.
  rewrite chars_app in Hnul. apply nul_free_app in Hnul as [HnP Hnr].
  rewrite <- length_chars, chars_app, length_app, !length_chars in Hlen.
  assert (String.length (os_strftime env sec) ≤ String.length P) as Hstamp.
  { unfold P, prefix_text. rewrite <- !length_chars, chars_app, length_app. lia. }
  destruct (prefix_at_holds env sec usec (uninit 256) 256 "notice" HnP)
    as (b0 & E0 & H0 & L0); [lia|by rewrite length_uninit|].
  fold P in E0, H0. rewrite take_ge in E0, H0 by (rewrite length_chars; lia).
  rewrite E0.
  destruct (snprintf_step b0 (chars P) rest 256 H0) as (b1 & r & E1 & H1 & _ & _);
    [rewrite length_chars; lia|by rewrite L0, length_uninit|done|].
  rewrite E1. rewrite (holds_c_str _ _ H1).
  rewrite take_ge by (rewrite length_app, !length_chars; lia).
  by rewrite of_chars_app, !String.string_of_list_ascii_of_string.
Qed.

(** * Dispatch *)

(** More critical severities have smaller values. *)
Lemma severities_ordered :
  (LOG_ERR < LOG_WARN < LOG_NOTICE)%Z ∧ (LOG_NOTICE < LOG_INFO < LOG_DEBUG)%Z.
Proof. by vm_compute. Qed.

Lemma sev_to_string_is_Some s : is_severity s → is_Some (sev_to_string s).
Proof.
  unfold is_severity, severities. rewrite !elem_of_cons, elem_of_nil.
  intros [->|[->|[->|[->|[->|[]]]]]]; by eexists.
Qed.

Lemma sev_to_string_Some_inv s name : sev_to_string s = Some name → is_severity s.
Proof.
  unfold sev_to_string, is_severity, severities. rewrite !elem_of_cons.
  destruct (Z.eqb_spec s LOG_DEBUG); [tauto|].
  destruct (Z.eqb_spec s LOG_INFO); [tauto|].
  destruct (Z.eqb_spec s LOG_NOTICE); [tauto|].
  destruct (Z.eqb_spec s LOG_WARN); [tauto|].
  destruct (Z.eqb_spec s LOG_ERR); [tauto|done].
Qed.

Section Dispatch.

Context (env : env_t).

(** [format_msg] returns for every severity of the scale; it appends
    its two events, and touches nothing else. *)
Lemma format_msg_returns buf buf_len s funcname format st :
  is_severity s →
  ∃ fm sec usec,
    format_msg env buf buf_len s funcname format st
    = Some (fm, add_event (EGettimeofday sec usec) (add_event EFormatMsg st)).
Proof.
  intros [name Hname]%sev_to_string_is_Some.
  unfold format_msg, _log_prefix, bind, emit, tor_gettimeofday, ret. simpl.
  destruct (strftime _ _ _ _) as [b1 n1].
  rewrite Hname. simpl.
  destruct (tor_snprintf b1 _ _ _) as [b2 r2].
  destruct (r2 <? 0)%Z; simpl.
  all: destruct funcname as [fn|].
  all: repeat match goal with
       | |- context [tor_snprintf ?b ?o ?k ?t] => destruct (tor_snprintf b o k t) as [? ?]
       | |- context [tor_vsnprintf ?b ?o ?k ?t] => destruct (tor_vsnprintf b o k t) as [? ?]
       | |- context [(?r <? 0)%Z] => destruct (r <? 0)%Z
       end.
  all: by eexists _, _, _.
Qed.

Lemma takes_None_inv s l :
  takes s l = None →
  (s >? loglevel l)%Z || (s <? max_loglevel l)%Z = true
  ∨ ((s >? loglevel l)%Z || (s <? max_loglevel l)%Z = false
     ∧ negb (bool_decide (is_Some (file l)) || is_syslog l
             || bool_decide (is_Some (callback l))) = true).
Proof.
  unfold takes, accepts, target_of.
  destruct (Z.gtb_spec s (loglevel l)); [by left|].
  destruct (Z.ltb_spec s (max_loglevel l)); [by left|].
  rewrite !bool_decide_eq_true_2 by lia. simpl.
  destruct (is_syslog l); [done|].
  destruct (callback l); [done|].
  destruct (file l); [done|]. by right.
Qed.

Lemma takes_Some_inv s l t :
  takes s l = Some t →
  (s >? loglevel l)%Z || (s <? max_loglevel l)%Z = false
  ∧ negb (bool_decide (is_Some (file l)) || is_syslog l
          || bool_decide (is_Some (callback l))) = false
  ∧ target_of l = Some t.
Proof.
  unfold takes, accepts.
  destruct (Z.gtb_spec s (loglevel l)).
  { rewrite (bool_decide_eq_false_2 (s ≤ loglevel l)%Z) by lia.
    by rewrite andb_false_r. }
  destruct (Z.ltb_spec s (max_loglevel l)).
  { by rewrite (bool_decide_eq_false_2 (max_loglevel l ≤ s)%Z) by lia. }
  rewrite !bool_decide_eq_true_2 by lia. simpl.
  intros Ht. split_and!; [done| |done].
  unfold target_of in Ht.
  destruct (is_syslog l); [by rewrite orb_true_r|].
  destruct (callback l); [by rewrite orb_true_r|].
  destruct (file l); [done|done].
Qed.

(** One turn of the loop, on the node at position [length pre]. *)
Lemma logv_body_visit s funcname format l pre next formatted st :
  is_severity s →
  logfiles st = pre ++ l :: next →
  ∃ i' fm' st' evs kept fmt_evs,
    logv_body env s funcname format l (length pre) formatted st
    = Some ((i', fm'), st')
    ∧ trace st' = trace st ++ fmt_evs ++ evs
    ∧ syslog_count st' = syslog_count st
    ∧ logfiles st' = pre ++ option_list kept ++ next
    ∧ i' = length (pre ++ option_list kept)
    ∧ match takes s l with
      | None => fm' = formatted ∧ fmt_evs = [] ∧ evs = [] ∧ kept = Some l ∧ st' = st
      | Some _ =>
          visit s (record_of fm') (text_of fm') l evs kept
          ∧ match formatted with
            | Some fm => fm' = Some fm ∧ fmt_evs = []
            | None =>
                ∃ fm sec usec,
                  format_msg env (uninit LOGV_BUF_SIZE) LOGV_BUF_SIZE s funcname format st
                  = Some (fm, add_event (EGettimeofday sec usec)
                                (add_event EFormatMsg st))
                  ∧ fm' = Some fm
                  ∧ fmt_evs = [EFormatMsg; EGettimeofday sec usec]
            end
      end.
Proof.
  intros Hs Hl. unfold logv_body.
  destruct (takes s l) as [t|] eqn:Ht.
  - destruct (takes_Some_inv _ _ _ Ht) as (-> & -> & Htgt).
    assert (∃ fm st1 fmt_evs,
      (match formatted with
       | Some fm => ret fm
       | None => format_msg env (uninit LOGV_BUF_SIZE) LOGV_BUF_SIZE s funcname format
       end) st = Some (fm, st1)
      ∧ trace st1 = trace st ++ fmt_evs
      ∧ syslog_count st1 = syslog_count st
      ∧ logfiles st1 = logfiles st
      ∧ match formatted with
        | Some fm0 => Some fm = Some fm0 ∧ fmt_evs = []
        | None =>
            ∃ fm0 sec usec,
              format_msg env (uninit LOGV_BUF_SIZE) LOGV_BUF_SIZE s funcname format st
              = Some (fm0, add_event (EGettimeofday sec usec)
                             (add_event EFormatMsg st))
              ∧ Some fm = Some fm0
              ∧ fmt_evs = [EFormatMsg; EGettimeofday sec usec]
        end) as (fm & st1 & fmt_evs & Hfm & Htr1 & Hsc1 & Hlf1 & Hfmt).
    { destruct formatted as [fm0|].
      - exists fm0, st, []. by rewrite app_nil_r.
      - destruct (format_msg_returns (uninit LOGV_BUF_SIZE) LOGV_BUF_SIZE s funcname format st Hs)
          as (fm & sec & usec & E).
        exists fm, (add_event (EGettimeofday sec usec) (add_event EFormatMsg st)),
          [EFormatMsg; EGettimeofday sec usec].
        split_and!; [done|by simpl; rewrite <- app_assoc|done|done|].
        by exists fm, sec, usec. }
    unfold bind at 1. rewrite Hfm. destruct fm as [buf eop].
    unfold target_of in Htgt.
    destruct (is_syslog l) eqn:Esys.
    { injection Htgt as <-.
      eexists _, _, _, [ESyslog s (c_str buf eop)], (Some l), fmt_evs.
      unfold bind, emit, ret. simpl.
      split_and!; try done.
      - simpl. by rewrite Htr1, <- app_assoc.
      - simpl. by rewrite Hlf1.
      - rewrite length_app. simpl. lia.
      - apply visit_syslog. unfold takes in *. destruct (accepts s l); [|done].
        unfold target_of. by rewrite Esys. }
    destruct (callback l) as [cb|] eqn:Ecb.
    { injection Htgt as <-.
      eexists _, _, _, [ECallback cb s (c_str buf eop)], (Some l), fmt_evs.
      unfold bind, emit, ret. simpl.
      split_and!; try done.
      - simpl. by rewrite Htr1, <- app_assoc.
      - simpl. by rewrite Hlf1.
      - rewrite length_app. simpl. lia.
      - apply visit_callback. unfold takes in *. destruct (accepts s l); [|done].
        unfold target_of. by rewrite Esys, Ecb. }
    destruct (file l) as [f|] eqn:Ef; [|done]. injection Htgt as <-.
    assert (takes s l = Some (TFile f)) as Htk.
    { unfold takes in *. destruct (accepts s l); [|done].
      unfold target_of. by rewrite Esys, Ecb, Ef. }
    unfold bind, assert_some, ret, fputs. simpl.
    destruct (os_fputs env (trace st1) (c_str buf 0) f) eqn:Ew.
    + unfold fflush. simpl.
      destruct (os_fflush env _ f) eqn:Efl.
      * eexists _, _, _, [EFputs (c_str buf 0) f true; EFflush f true], (Some l), fmt_evs.
        split_and!; try done.
        -- simpl. by rewrite Htr1, <- !app_assoc.
        -- simpl. by rewrite Hlf1.
        -- rewrite length_app. simpl. lia.
        -- by apply visit_file.
      * unfold delete_log, bind, get_logfiles, put_logfiles. simpl.
        rewrite Hlf1, Hl, list_lookup_middle by done.
        eexists _, _, _, [EFputs (c_str buf 0) f true; EFflush f false], None, fmt_evs.
        split_and!; try done.
        -- simpl. by rewrite Htr1, <- !app_assoc.
        -- simpl. by rewrite delete_middle.
        -- simpl. by rewrite app_nil_r.
        -- by apply visit_fflush_failed.
    + unfold delete_log, bind, get_logfiles, put_logfiles. simpl.
      rewrite Hlf1, Hl, list_lookup_middle by done.
      eexists _, _, _, [EFputs (c_str buf 0) f false], None, fmt_evs.
      split_and!; try done.
      * simpl. by rewrite Htr1, <- !app_assoc.
      * simpl. by rewrite delete_middle.
      * simpl. by rewrite app_nil_r.
      * by apply visit_fputs_failed.
  - exists (S (length pre)), formatted, st, [], (Some l), [].
    split_and!; try done.
    + destruct (takes_None_inv _ _ Ht) as [->|[-> ->]]; done.
    + by rewrite !app_nil_r.
    + rewrite length_app. simpl. lia.
Qed.

(** The loop visits every node of the chain once, in order.  The
    formatter runs before the first delivery, if there is one. *)
Lemma logv_loop_walk s funcname format :
  is_severity s →
  ∀ lf pre formatted st,
    logfiles st = pre ++ lf →
    ∃ st' steps fmt_evs fm,
      logv_loop env s funcname format lf (length pre) formatted st = Some (tt, st')
      ∧ Forall2 (λ l step, visit s (record_of fm) (text_of fm) l step.1 step.2)
          lf steps
      ∧ trace st' = trace st ++ fmt_evs ++ concat (steps.*1)
      ∧ logfiles st' = pre ++ omap snd steps
      ∧ syslog_count st' = syslog_count st
      ∧ match formatted with
        | Some fm0 => fm = Some fm0 ∧ fmt_evs = []
        | None =>
            match omap (takes s) lf with
            | [] => fm = None ∧ fmt_evs = []
            | _ :: _ =>
                ∃ fm0 sec usec,
                  format_msg env (uninit LOGV_BUF_SIZE) LOGV_BUF_SIZE s funcname format st
                  = Some (fm0, add_event (EGettimeofday sec usec)
                                 (add_event EFormatMsg st))
                  ∧ fm = Some fm0
                  ∧ fmt_evs = [EFormatMsg; EGettimeofday sec usec]
            end
        end.
Proof.
  intros Hs. induction lf as [|l next IH]; intros pre formatted st Hl.
  - exists st, [], [], formatted. simpl.
    split_and!; [done|constructor|by rewrite app_nil_r|by rewrite app_nil_r in *|done|].
    by destruct formatted.
  - destruct (logv_body_visit s funcname format l pre next formatted st Hs Hl)
      as (i' & fm' & st1 & evs & kept & fmt1 & Hbody & Htr1 & Hsc1 & Hlf1 & -> & Hcase).
    rewrite app_assoc in Hlf1.
    destruct (IH _ fm' st1 Hlf1) as (st' & steps & fmt2 & fm & Hloop & Hvis & Htr & Hlf & Hsc & Hfmt).
    simpl. unfold bind at 1. rewrite Hbody, Hloop.
    simpl. destruct (takes s l) as [t|] eqn:Ht.
    + destruct Hcase as [Hv Hcase].
      assert (fm = fm' ∧ fmt2 = [] ∧ is_Some fm') as (-> & -> & Hsome).
      { destruct formatted as [fm0|].
        - destruct Hcase as [-> _]. by destruct Hfmt as [-> ->].
        - destruct Hcase as (fm0 & ? & ? & _ & -> & _). by destruct Hfmt as [-> ->]. }
      exists st', ((evs, kept) :: steps), fmt1, fm'.
      split_and!; [done|by constructor| | |congruence|].
      * rewrite Htr, Htr1. simpl. by rewrite <- !app_assoc.
      * rewrite Hlf. destruct kept; simpl; by rewrite <- ?app_assoc.
      * destruct formatted as [fm0|]; [done|].
        destruct Hcase as (fm0 & sec & usec & ? & ? & ?). by exists fm0, sec, usec.
    + destruct Hcase as (-> & -> & -> & -> & ->).
      exists st', (([], Some l) :: steps), fmt2, fm.
      split_and!; [done| | | |congruence|].
      * constructor; [|done]. by apply visit_skip.
      * by rewrite Htr.
      * rewrite Hlf. simpl. by rewrite <- app_assoc.
      * done.
Qed.

Lemma logv_walk s funcname format st :
  is_severity s →
  ∃ st' steps fmt_evs fm,
    logv env s funcname format st = Some (tt, st')
    ∧ Forall2 (λ l step, visit s (record_of fm) (text_of fm) l step.1 step.2)
        (logfiles st) steps
    ∧ new_events st st' = fmt_evs ++ concat (steps.*1)
    ∧ logfiles st' = omap snd steps
    ∧ syslog_count st' = syslog_count st
    ∧ match omap (takes s) (logfiles st) with
      | [] => fm = None ∧ fmt_evs = []
      | _ :: _ =>
          ∃ fm0 sec usec,
            format_msg env (uninit LOGV_BUF_SIZE) LOGV_BUF_SIZE s funcname format st
            = Some (fm0, add_event (EGettimeofday sec usec)
                           (add_event EFormatMsg st))
            ∧ fm = Some fm0
            ∧ fmt_evs = [EFormatMsg; EGettimeofday sec usec]
      end.
Proof.
  intros Hs.
  destruct (logv_loop_walk s funcname format Hs (logfiles st) [] None st eq_refl)
    as (st' & steps & fmt_evs & fm & Hloop & Hvis & Htr & Hlf & Hsc & Hfmt).
  exists st', steps, fmt_evs, fm. split_and!; try done.
  unfold new_events. by rewrite Htr, drop_app_length.
Qed.

Lemma visit_deliveries s record text lf steps :
  Forall2 (λ l step, visit s record text l step.1 step.2) lf steps →
  deliveries (concat (steps.*1)) = omap (takes s) lf.
Proof.
  unfold deliveries.
  induction 1 as [|l [evs kept] lf steps Hv _ IH]; [done|].
  rewrite fmap_cons, concat_cons, omap_app, IH. simpl in Hv.
  by destruct Hv as [E|E|? E|? E|? E|? E]; simpl; rewrite E.
Qed.




Lemma visit_consumes s record text lf steps :
  Forall2 (λ l step, visit s record text l step.1 step.2) lf steps →
  format_calls (concat (steps.*1)) = 0
  ∧ Forall (consumes s record text) (concat (steps.*1)).
Proof.
  unfold format_calls.
  induction 1 as [|l [evs kept] lf steps Hv _ [IH1 IH2]]; [done|].
  rewrite fmap_cons, concat_cons, filter_app, length_app, IH1, Forall_app.
  simpl in Hv.
  by destruct Hv; repeat constructor.
Qed.

(** C3, amended: a dispatch call invokes the formatter at most once:
    exactly once when at least one registered sink takes the message,
    and not at all otherwise, for instance on an empty registry.  All
    the deliveries of the call hand out the record of that one
    invocation: files get the whole record, syslog and callbacks its
    message portion. *)
Theorem logv_formats_at_most_once s funcname format st :
  is_severity s →
  ∃ st' fm,
    logv env s funcname format st = Some (tt, st')
    ∧ format_calls (new_events st st')
      = match omap (takes s) (logfiles st) with [] => 0 | _ :: _ => 1 end
    ∧ Forall (consumes s (record_of fm) (text_of fm)) (new_events st st')
    ∧ match omap (takes s) (logfiles st) with
      | [] => fm = None
      | _ :: _ =>
          ∃ fm0 st1,
            format_msg env (uninit LOGV_BUF_SIZE) LOGV_BUF_SIZE s funcname format st
            = Some (fm0, st1)
            ∧ fm = Some fm0
      end.
Proof.
  intros Hs.
  destruct (logv_walk s funcname format st Hs)
    as (st' & steps & fmt_evs & fm & Hrun & Hvis & Hnew & Hlf & Hsc & Hfmt).
  destruct (visit_consumes _ _ _ _ _ Hvis) as [Hcalls Hcons].
  exists st', fm. rewrite Hnew.
  unfold format_calls in *. rewrite filter_app, length_app, Hcalls, Forall_app.
  destruct (omap (takes s) (logfiles st)).
  - destruct Hfmt as [-> ->]. done.
  - destruct Hfmt as (fm0 & sec & usec & Hf & -> & ->).
    split_and!; [done|done|by repeat constructor|done|eauto].
Qed.

End Dispatch.

Lemma severity_LOG_ERR : is_severity LOG_ERR.
Proof. unfold is_severity, severities. by repeat constructor. Defined.

Lemma severity_LOG_NOTICE : is_severity LOG_NOTICE.
Proof. unfold is_severity, severities. by repeat constructor. Defined.



(** C3, counterexample: a dispatch on an empty registry does not invoke
    the formatter: the call count is 0, not 1. *)
Lemma logv_empty_registry_never_formats :
  ∃ st',
    logv env_ok LOG_NOTICE None "Bootstrapped 100%." empty_state = Some (tt, st')
    ∧ format_calls (new_events empty_state st') = 0
    ∧ format_calls (new_events empty_state st') ≠ 1.
Proof. exists empty_state. by vm_compute. Qed.

(** Nor does a dispatch that no registered sink takes: [two_sinks] has
    no sink for Debug. *)
Example logv_debug_never_formats :
  _log env_ok LOG_DEBUG "Circuit built." two_sinks = Some (tt, two_sinks).
Proof. by vm_compute. Qed.

(** C3, witness: at Error both sinks take the message and the formatter
    runs once. *)
Lemma logv_formats_at_most_once_witness :
  is_severity LOG_ERR
  ∧ ∃ st',
      logv env_ok LOG_ERR None "No space left." two_sinks = Some (tt, st')
      ∧ format_calls (new_events two_sinks st') = 1.
Proof.
  split; [exact severity_LOG_ERR|].
  destruct (logv_formats_at_most_once env_ok LOG_ERR None "No space left."
              two_sinks severity_LOG_ERR) as (st' & fm & Hrun & Hcalls & _).
  exists st'. split; [exact Hrun|]. rewrite Hcalls. reflexivity.
Defined.

(** The scenario of the specification: the file sink receives one line
    tagged with the severity; at Notice the callback is not invoked; at
    Error it receives the message portion. *)
Example logv_notice_scenario :
  _log env_ok LOG_NOTICE "Bootstrapped 100%." two_sinks
  = Some (tt,
      {| logfiles := logfiles two_sinks; syslog_count := 0;
         trace := [EFormatMsg; EGettimeofday 1102593600 123456;
                   EFputs ("Dec 09 12:00:00.123 [notice] Bootstrapped 100%."
                           +:+ String.String LF "") 5 true;
                   EFflush 5 true] |}).
Proof. by vm_compute. Qed.

Example logv_error_scenario :
  _log_fn env_ok LOG_ERR "main" "No space left." two_sinks
  = Some (tt,
      {| logfiles := logfiles two_sinks; syslog_count := 0;
         trace := [EFormatMsg; EGettimeofday 1102593600 123456;
                   EFputs ("Dec 09 12:00:00.123 [err] main(): No space left."
                           +:+ String.String LF "") 5 true;
                   EFflush 5 true;
                   ECallback 9 LOG_ERR ("main(): No space left."
                                        +:+ String.String LF "")] |}).
Proof. by vm_compute. Qed.

(** * What a dispatch does not do *)

Lemma omap_snd_cons {A B} (a : A) (kept : option B) (steps : list (A * option B)) :
  omap snd ((a, kept) :: steps) = option_list kept ++ omap snd steps.
Proof. by destruct kept. Qed.

(** The sinks a dispatch removes deliver to a file: they own no
    reference on the syslog facility; the others stay as they are. *)
Lemma visit_without_failure s record text lf steps :
  Forall2 (λ l step, visit s record text l step.1 step.2) lf steps →
  Forall is_dispatch_call (concat (steps.*1))
  ∧ (¬ write_failed (concat (steps.*1)) → omap snd steps = lf).
Proof.
  unfold write_failed.
  induction 1 as [|l [evs kept] lf steps Hv _ [IH1 IH2]].
  - split; [constructor|done].
  - rewrite fmap_cons, concat_cons, Forall_app, Exists_app, omap_snd_cons.
    simpl in Hv. split.
    + split; [|done]. destruct Hv; by repeat constructor.
    + intros Hno.
      rewrite IH2 by tauto.
      destruct Hv; simpl; try done.
      * destruct Hno. left. by apply Exists_cons_hd.
      * destruct Hno. left. by apply Exists_cons_tl, Exists_cons_hd.
Qed.





(** * Release, shutdown and the temporary sinks *)

Lemma new_events_app st st' evs :
  trace st' = trace st ++ evs → new_events st st' = evs.
Proof. intros H. unfold new_events. by rewrite H, drop_app_length. Qed.

Lemma closed_handles_app evs1 evs2 :
  closed_handles (evs1 ++ evs2) = closed_handles evs1 ++ closed_handles evs2.
Proof. apply omap_app. Qed.

Lemma syslog_refs_cons lf l :
  syslog_refs (lf :: l) = ((if syslog_ref lf then 1 else 0) + syslog_refs l)%Z.
Proof.
  unfold syslog_refs. rewrite filter_cons.
  destruct (syslog_ref lf); case_decide; simpl; try done; lia.
Qed.

Section Lifecycle.

Context (env : env_t).

(** [close_log] closes the handle the sink owns, or gives back its
    reference on the syslog facility. *)
Lemma close_log_releases lf st :
  ∃ st' evs,
    close_log env lf st = Some (tt, st')
    ∧ logfiles st' = logfiles st
    ∧ trace st' = trace st ++ evs
    ∧ closed_handles evs = option_list (owned_handle lf)
    ∧ syslog_count st' = (syslog_count st - (if syslog_ref lf then 1 else 0))%Z.
Proof.
  unfold close_log, owned_handle, syslog_ref, owned_handle.
  destruct (needs_close lf), (file lf) as [f|]; simpl.
  - unfold bind, fclose, ret. simpl.
    eexists _, [EFclose f _]. split_and!; try done. simpl. lia.
  - destruct (is_syslog lf).
    + unfold closelog_if_last. destruct (_ =? 0)%Z.
      * eexists _, [ECloselog]. split_and!; done.
      * eexists _, []. split_and!; try done. simpl. by rewrite app_nil_r.
    + eexists _, []. unfold ret. split_and!; try done.
      * by rewrite app_nil_r.
      * lia.
  - destruct (is_syslog lf).
    + unfold closelog_if_last. destruct (_ =? 0)%Z.
      * eexists _, [ECloselog]. split_and!; done.
      * eexists _, []. split_and!; try done. simpl. by rewrite app_nil_r.
    + eexists _, []. unfold ret. split_and!; try done.
      * by rewrite app_nil_r.
      * lia.
  - destruct (is_syslog lf).
    + unfold closelog_if_last. destruct (_ =? 0)%Z.
      * eexists _, [ECloselog]. split_and!; done.
      * eexists _, []. split_and!; try done. simpl. by rewrite app_nil_r.
    + eexists _, []. unfold ret. split_and!; try done.
      * by rewrite app_nil_r.
      * lia.
Qed.

Lemma log_tor_version_skips lf reset st :
  needs_close lf = false ∨ is_temporary lf = true →
  log_tor_version env lf reset st = Some (tt, st).
Proof.
  unfold log_tor_version.
  intros [->| ->]; [done|]. by destruct (needs_close lf).
Qed.

Lemma log_tor_version_opening lf f reset st :
  needs_close lf = true → is_temporary lf = false → file lf = Some f →
  ∃ st' evs,
    log_tor_version env lf reset st = Some (tt, st')
    ∧ logfiles st' = logfiles st
    ∧ syslog_count st' = syslog_count st
    ∧ trace st' = trace st ++ evs
    ∧ opening env f reset evs.
Proof.
  intros Hn Ht Hf. unfold log_tor_version. rewrite Hn, Ht, Hf. simpl.
  unfold bind at 1. simpl. unfold bind at 1. simpl.
  set (pos := os_ftell env (trace st) f).
  destruct (Z.eqb_spec pos 0) as [Hp|Hp].
  - rewrite andb_false_r. unfold bind at 1.
    rewrite (_log_prefix_run env _ _ LOG_NOTICE "notice") by done. simpl.
    set (sec := (os_gettimeofday env _).1). set (usec := (os_gettimeofday env _).2).
    pose proof (opening_banner env f reset pos sec usec) as Ho.
    unfold banner_record in Ho. rewrite (bool_decide_eq_true_2 _ Hp) in Ho.
    destruct (prefix_at env sec usec (uninit 256) 256 "notice") as [b1 n1].
    destruct (tor_snprintf b1 _ _ _) as [b2 r2].
    unfold bind, fputs, ret. simpl.
    eexists _, _. split_and!; [done|done|done|simpl; by rewrite <- !app_assoc|].
    apply Ho. by right.
  - destruct reset; simpl.
    + eexists _, _. unfold ret. split_and!; [done|done|done|done|].
      by apply opening_quiet.
    + unfold bind at 1.
      rewrite (_log_prefix_run env _ _ LOG_NOTICE "notice") by done. simpl.
      set (sec := (os_gettimeofday env _).1). set (usec := (os_gettimeofday env _).2).
      pose proof (opening_banner env f false pos sec usec) as Ho.
      unfold banner_record in Ho. rewrite (bool_decide_eq_false_2 _ Hp) in Ho.
      destruct (prefix_at env sec usec (uninit 256) 256 "notice") as [b1 n1].
      destruct (tor_snprintf b1 _ _ _) as [b2 r2].
      unfold bind, fputs, ret. simpl.
      eexists _, _. split_and!; [done|done|done|simpl; by rewrite <- !app_assoc|].
      apply Ho. by left.
Qed.

(** [close_logs] empties the registry and releases every sink. *)
Lemma close_logs_loop_releases l st :
  ∃ st' evs,
    close_logs_loop env l st = Some (tt, st')
    ∧ logfiles st' = match l with [] => logfiles st | _ :: _ => [] end
    ∧ trace st' = trace st ++ evs
    ∧ closed_handles evs = omap owned_handle l
    ∧ syslog_count st' = (syslog_count st - syslog_refs l)%Z.
Proof.
  revert st. induction l as [|victim next IH]; intros st.
  - exists st, []. split_and!; try done; [by rewrite app_nil_r|].
    unfold syslog_refs. simpl. lia.
  - simpl. unfold bind at 1, put_logfiles.
    destruct (close_log_releases victim (set_logfiles next st))
      as (st1 & evs1 & Hc & Hlf1 & Htr1 & Hcl1 & Hsc1).
    unfold bind at 1. rewrite Hc.
    destruct (IH st1) as (st' & evs & Hloop & Hlf & Htr & Hcl & Hsc).
    rewrite Hloop. exists st', (evs1 ++ evs).
    split_and!; [done| | | |].
    + rewrite Hlf. destruct next; [|done]. by rewrite Hlf1.
    + rewrite Htr, Htr1. simpl. by rewrite app_assoc.
    + rewrite closed_handles_app, Hcl1, Hcl. by destruct (owned_handle victim).
    + rewrite Hsc, Hsc1, syslog_refs_cons. simpl. lia.
Qed.

Lemma close_logs_releases st :
  ∃ st' evs,
    close_logs env st = Some (tt, st')
    ∧ logfiles st' = []
    ∧ trace st' = trace st ++ evs
    ∧ closed_handles evs = omap owned_handle (logfiles st)
    ∧ syslog_count st' = (syslog_count st - syslog_refs (logfiles st))%Z.
Proof.
  destruct (close_logs_loop_releases (logfiles st) st)
    as (st' & evs & Hrun & Hlf & Hrest).
  exists st', evs. split_and!; [done| |apply Hrest..].
  rewrite Hlf. by destruct (logfiles st) eqn:E.
Qed.

(** [close_temp_logs] unlinks and releases the temporary sinks of the
    chain, and leaves the others where they are. *)
Lemma close_temp_logs_loop_releases lf :
  ∀ pre st,
    logfiles st = pre ++ lf →
    ∃ st' evs,
      close_temp_logs_loop env lf (length pre) st = Some (tt, st')
      ∧ logfiles st' = pre ++ filter (λ l, is_temporary l = false) lf
      ∧ trace st' = trace st ++ evs
      ∧ closed_handles evs
        = omap owned_handle (filter (λ l, is_temporary l = true) lf)
      ∧ syslog_count st'
        = (syslog_count st
           - syslog_refs (filter (λ l, is_temporary l = true) lf))%Z.
Proof.
  induction lf as [|l next IH]; intros pre st Hl.
  - exists st, []. rewrite !app_nil_r in *. split_and!; try done.
    unfold syslog_refs. simpl. lia.
  - simpl. rewrite !filter_cons. destruct (is_temporary l) eqn:Et.
    + unfold bind at 1, get_logfiles. unfold bind at 1, put_logfiles.
      rewrite Hl, delete_middle.
      destruct (close_log_releases l (set_logfiles (pre ++ next) st))
        as (st1 & evs1 & Hc & Hlf1 & Htr1 & Hcl1 & Hsc1).
      unfold bind at 1. rewrite Hc.
      destruct (IH pre st1 Hlf1) as (st' & evs & Hloop & Hlf & Htr & Hcl & Hsc).
      rewrite Hloop. exists st', (evs1 ++ evs).
      rewrite decide_False, decide_True by done.
      split_and!; [done|done| | |].
      * rewrite Htr, Htr1. simpl. by rewrite app_assoc.
      * rewrite closed_handles_app, Hcl1, Hcl. simpl.
        by destruct (owned_handle l).
      * rewrite Hsc, Hsc1, syslog_refs_cons. simpl. lia.
    + rewrite decide_True, decide_False by done.
      assert (logfiles st = (pre ++ [l]) ++ next) as Hl' by by rewrite <- app_assoc.
      destruct (IH (pre ++ [l]) st Hl') as (st' & evs & Hloop & Hlf & Hrest).
      rewrite length_app, Nat.add_1_r in Hloop.
      exists st', evs. split_and!; [done| |apply Hrest..].
      rewrite Hlf. by rewrite <- app_assoc.
Qed.

Lemma add_file_log_run min max path st :
  match os_fopen env (trace st) path with
  | None =>
      add_file_log env min max path st
      = Some ((-1)%Z, add_event (EFopen path None) st)
  | Some f =>
      ∃ st' evs,
        add_file_log env min max path st = Some (0%Z, st')
        ∧ logfiles st' = file_sink min max path f true :: logfiles st
        ∧ syslog_count st' = syslog_count st
        ∧ trace st' = trace st ++ EFopen path (Some f) :: evs
        ∧ opening env f false evs
  end.
Proof.
  unfold add_file_log, fopen, add_stream_log, update_head, head_logfile, bind,
    get_logfiles, put_logfiles, assert_some, ret. simpl.
  destruct (os_fopen env (trace st) path) as [f|]; [|reflexivity]. simpl.
  set (st1 := set_logfiles _ _).
  destruct (log_tor_version_opening (file_sink min max path f true) f false st1)
    as (st' & evs & Hrun & Hlf & Hsc & Htr & Ho); [done..|].
  change (set_needs_close true _) with (file_sink min max path f true).
  rewrite Hrun.
  exists st', evs. split_and!; [done|done|done| |done].
  rewrite Htr. simpl. by rewrite <- app_assoc.
Qed.

(** Registration prepends to the registry, and nothing else touches
    the sinks already there. *)
Lemma register_prepends r st :
  ∃ st' added,
    register env r st = Some (tt, st') ∧ logfiles st' = added ++ logfiles st.
Proof.
  destruct r as [min max name stream| |min max cb|min max path|min max]; simpl.
  - by eexists _, [_].
  - by eexists _, [_].
  - by eexists _, [_].
  - unfold bind at 1. pose proof (add_file_log_run min max path st) as H.
    destruct (os_fopen env (trace st) path) as [f|].
    + destruct H as (st' & evs & -> & Hlf & _). by eexists _, [_].
    + rewrite H. by eexists _, [].
  - unfold bind, add_syslog_log, bind, openlog_if_first, get_logfiles,
      put_logfiles, ret.
    destruct (syslog_count st =? 0)%Z; by eexists _, [_].
Qed.

Lemma register_all_prepends rs :
  ∀ st, ∃ st' added,
    register_all env rs st = Some (tt, st') ∧ logfiles st' = added ++ logfiles st.
Proof.
  induction rs as [|r rs IH]; intros st.
  - by exists st, [].
  - simpl. unfold bind.
    destruct (register_prepends r st) as (st1 & a1 & -> & Hl1).
    destruct (IH st1) as (st' & a2 & -> & Hl2).
    exists st', (a2 ++ a1). by rewrite Hl2, Hl1, app_assoc.
Qed.

Lemma filter_marked_temporary (l : list logfile_t) :
  filter (λ lf, is_temporary lf = true) (set_is_temporary true <$> l)
  = set_is_temporary true <$> l
  ∧ filter (λ lf, is_temporary lf = false) (set_is_temporary true <$> l) = [].
Proof.
  induction l as [|x l [IH1 IH2]]; [done|].
  rewrite fmap_cons, filter_cons_True, filter_cons_False by (simpl; done).
  by rewrite IH1, IH2.
Qed.

Lemma release_marked_temporary (l : list logfile_t) :
  omap owned_handle (set_is_temporary true <$> l) = omap owned_handle l
  ∧ syslog_refs (set_is_temporary true <$> l) = syslog_refs l.
Proof.
  induction l as [|x l [IH1 IH2]]; [done|].
  rewrite fmap_cons, !syslog_refs_cons, IH2.
  split; [|done].
  change (omap owned_handle (set_is_temporary true x :: (set_is_temporary true <$> l)))
    with (match owned_handle x with
          | Some f => f :: omap owned_handle (set_is_temporary true <$> l)
          | None => omap owned_handle (set_is_temporary true <$> l)
          end).
  by rewrite IH1.
Qed.

(** Registration gives a handle to every sink it marks as owning
    one. *)
Lemma register_owned_have_handles r st :
  owned_have_handles (logfiles st) →
  ∃ st', register env r st = Some (tt, st') ∧ owned_have_handles (logfiles st').
Proof.
  intros Hown.
  destruct r as [min max name stream| |min max cb|min max path|min max]; simpl.
  - eexists. split; [done|]. by constructor.
  - eexists. split; [done|]. by constructor.
  - eexists. split; [done|]. by constructor.
  - unfold bind at 1. pose proof (add_file_log_run min max path st) as H.
    destruct (os_fopen env (trace st) path) as [f|].
    + destruct H as (st' & evs & -> & Hlf & _). eexists. split; [done|].
      simpl. rewrite Hlf. constructor; [by eauto|done].
    + rewrite H. by eexists.
  - unfold bind, add_syslog_log, bind, openlog_if_first, get_logfiles,
      put_logfiles, ret.
    destruct (syslog_count st =? 0)%Z; eexists; (split; [done|]); by constructor.
Qed.

Lemma register_all_owned_have_handles rs :
  ∀ st,
    owned_have_handles (logfiles st) →
    ∃ st',
      register_all env rs st = Some (tt, st')
      ∧ owned_have_handles (logfiles st').
Proof.
  induction rs as [|r rs IH]; intros st Hown.
  - by exists st.
  - simpl. unfold bind.
    destruct (register_owned_have_handles r st Hown) as (st1 & -> & Hown1).
    by apply IH.
Qed.


Lemma syslog_refs_app (l1 l2 : list logfile_t) :
  syslog_refs (l1 ++ l2) = (syslog_refs l1 + syslog_refs l2)%Z.
Proof. unfold syslog_refs. rewrite filter_app, length_app. lia. Qed.

(** C8: after [mark_logs_temp], any registrations, and
    [close_temp_logs], the registry holds exactly the sinks registered
    in between that are not flagged temporary, unchanged and in order.
    Every sink registered at mark time is gone and released: the handle
    it owned is closed, the syslog reference it held is given back. *)
Theorem mark_then_close_temp rs st :
  ∃ st1 st2 st3 added,
    mark_logs_temp st = Some (tt, st1)
    ∧ register_all env rs st1 = Some (tt, st2)
    ∧ logfiles st2 = added ++ (set_is_temporary true <$> logfiles st)
    ∧ close_temp_logs env st2 = Some (tt, st3)
    ∧ logfiles st3 = filter (λ lf, is_temporary lf = false) added
    ∧ closed_handles (new_events st2 st3)
      = omap owned_handle
          (filter (λ lf, is_temporary lf = true) added ++ logfiles st)
    ∧ syslog_count st3
      = (syslog_count st2
         - syslog_refs (filter (λ lf, is_temporary lf = true) added ++ logfiles st))%Z.
Proof.
  destruct (register_all_prepends rs
              (set_logfiles (set_is_temporary true <$> logfiles st) st))
    as (st2 & added & Hreg & Hl2).
  simpl in Hl2.
  destruct (close_temp_logs_loop_releases (logfiles st2) [] st2 eq_refl)
    as (st3 & evs & Hrun & Hlf & Htr & Hcl & Hsc).
  destruct (filter_marked_temporary (logfiles st)) as [Hf1 Hf2].
  destruct (release_marked_temporary (logfiles st)) as [Hr1 Hr2].
  eexists _, st2, st3, added. split_and!; [done..| | | |].
  - unfold close_temp_logs, bind, get_logfiles. exact Hrun.
  - rewrite Hlf, Hl2. simpl. by rewrite filter_app, Hf2, app_nil_r.
  - rewrite (new_events_app _ _ _ Htr), Hcl, Hl2.
    by rewrite filter_app, Hf1, !omap_app, Hr1.
  - rewrite Hsc, Hl2. by rewrite filter_app, Hf1, !syslog_refs_app, Hr2.
Qed.

End Lifecycle.



(** * Rotation *)

Section Rotation.

Context (env : env_t).

(** [reset_log] on the node at position [length pre]. *)
Lemma reset_log_rotation l pre next st :
  logfiles st = pre ++ l :: next →
  (needs_close l = true → is_Some (file l)) →
  ∃ r st1 evs kept,
    reset_log env (length pre) l st = Some (r, st1)
    ∧ rotation env l evs kept
    ∧ trace st1 = trace st ++ evs
    ∧ syslog_count st1 = syslog_count st
    ∧ match kept with
      | Some l' => r = 0%Z ∧ logfiles st1 = pre ++ l' :: next
      | None => r ≠ 0%Z ∧ ∃ l', logfiles st1 = pre ++ l' :: next
      end.
Proof.
  intros Hl Hown. unfold reset_log.
  destruct (needs_close l) eqn:En.
  - destruct (Hown eq_refl) as [f Hf]. rewrite Hf.
    unfold bind at 1. simpl. unfold bind at 1, fclose. simpl.
    destruct (os_fclose env (trace st) f) eqn:Ec; simpl.
    + unfold bind at 1, fopen. simpl.
      set (tr1 := trace st ++ [EFclose f true]).
      unfold bind at 1, get_logfiles. simpl.
      unfold bind at 1, put_logfiles. simpl.
      rewrite Hl, insert_app_r_alt, Nat.sub_diag by done. simpl.
      destruct (os_fopen env tr1 (filename l)) as [f'|] eqn:Eo.
      * set (st1 := set_logfiles _ _).
        destruct (is_temporary l) eqn:Et.
        -- unfold bind.
           rewrite log_tor_version_skips by (by right).
           exists 0%Z, st1, [EFclose f true; EFopen (filename l) (Some f')],
             (Some (set_file (Some f') l)).
           split_and!; try done; [|simpl; by rewrite <- app_assoc].
           apply rotation_reopened; [done|done|]. by rewrite Et.
        -- destruct (log_tor_version_opening env (set_file (Some f') l) f' true st1)
             as (st2 & evs & Hrun & Hlf2 & Hsc2 & Htr2 & Ho); [done..|].
           unfold bind. rewrite Hrun.
           exists 0%Z, st2, (EFclose f true :: EFopen (filename l) (Some f') :: evs),
             (Some (set_file (Some f') l)).
           split_and!; try done.
           ++ apply rotation_reopened; [done|done|]. by rewrite Et.
           ++ rewrite Htr2. simpl. by rewrite <- !app_assoc.
      * eexists _, _, [EFclose f true; EFopen (filename l) None], None.
        split_and!; try done.
        -- by apply rotation_open_failed.
        -- simpl; by rewrite <- app_assoc.
        -- by eexists.
    + eexists _, _, [EFclose f false], None.
      split_and!; try done.
      * by apply rotation_close_failed.
      * by eexists.
  - exists 0%Z, st, [], (Some l).
    split_and!; try done.
    + by apply rotation_not_owned.
    + by rewrite app_nil_r.
Qed.

Lemma reset_logs_loop_rotation lf :
  ∀ pre st,
    logfiles st = pre ++ lf →
    owned_have_handles lf →
    ∃ st' steps,
      reset_logs_loop env lf (length pre) st = Some (tt, st')
      ∧ Forall2 (λ l step, rotation env l step.1 step.2) lf steps
      ∧ trace st' = trace st ++ concat (steps.*1)
      ∧ logfiles st' = pre ++ omap snd steps
      ∧ syslog_count st' = syslog_count st.
Proof.
  induction lf as [|l next IH]; intros pre st Hl Hown.
  - exists st, []. simpl. rewrite !app_nil_r in *.
    split_and!; [done|constructor|done..].
  - apply Forall_cons in Hown as [Hown1 Hown].
    destruct (reset_log_rotation l pre next st Hl Hown1)
      as (r & st1 & evs & kept & Hrun & Hrot & Htr1 & Hsc1 & Hk).
    simpl. unfold bind at 1. rewrite Hrun.
    destruct kept as [l'|].
    + destruct Hk as [-> Hlf1]. simpl.
      assert (logfiles st1 = (pre ++ [l']) ++ next) as Hlf1'
        by by rewrite <- app_assoc.
      destruct (IH (pre ++ [l']) st1 Hlf1' Hown)
        as (st' & steps & Hloop & Hvis & Htr & Hlf & Hsc).
      rewrite length_app, Nat.add_1_r in Hloop.
      exists st', ((evs, Some l') :: steps).
      split_and!; [done|by constructor| | |congruence].
      * rewrite Htr, Htr1. simpl. by rewrite <- app_assoc.
      * rewrite Hlf. simpl. by rewrite <- app_assoc.
    + destruct Hk as [Hr [l' Hlf1]].
      destruct (Z.eqb_spec r 0) as [?|_]; [done|]. simpl.
      unfold bind at 1, delete_log. unfold bind at 1, get_logfiles.
      rewrite Hlf1, list_lookup_middle by done.
      unfold put_logfiles. rewrite delete_middle.
      set (st2 := set_logfiles _ st1).
      destruct (IH pre st2 eq_refl Hown) as (st' & steps & Hloop & Hvis & Htr & Hlf & Hsc).
      exists st', ((evs, None) :: steps).
      split_and!; [done|by constructor| |done|].
      * rewrite Htr. simpl. by rewrite Htr1, <- app_assoc.
      * by rewrite Hsc.
Qed.

(** C6, amended: rotation acts on exactly the sinks that own a file
    handle.  Each such sink has its handle closed and, if the close
    succeeded, its path opened again in append mode; when the close or
    the reopening fails the sink is removed from the registry, and
    otherwise it stays, with the new handle and no other change.  Every
    sink that owns no handle is left as it is, and no call is made for
    it. *)
Theorem reset_logs_rotates st :
  owned_have_handles (logfiles st) →
  ∃ st' steps,
    reset_logs env st = Some (tt, st')
    ∧ Forall2 (λ lf step, rotation env lf step.1 step.2) (logfiles st) steps
    ∧ new_events st st' = concat (steps.*1)
    ∧ logfiles st' = omap snd steps
    ∧ syslog_count st' = syslog_count st
    ∧ owned_have_handles (logfiles st').
Proof.
  intros Hown.
  destruct (reset_logs_loop_rotation (logfiles st) [] st eq_refl Hown)
    as (st' & steps & Hrun & Hrot & Htr & Hlf & Hsc).
  exists st', steps. split_and!; [done|done| |done|done|].
  - by apply new_events_app.
  - rewrite Hlf. simpl. clear Hrun Htr Hlf Hsc.
    induction Hrot as [|lf [evs kept] l steps Hr _ IH]; [constructor|].
    apply Forall_cons in Hown as [Hown1 Hown].
    specialize (IH Hown). simpl in Hr.
    destruct Hr; simpl; try done; constructor; try done.
Qed.

Lemma opening_on_registration f evs :
  opening env f false evs →
  ∃ pos sec usec ok,
    evs = [EFtell f pos; EGettimeofday sec usec;
           EFputs (banner_record env sec usec (bool_decide (pos = 0%Z))) f ok].
Proof. inversion 1; [done|]. by eexists _, _, _, _. Qed.

Lemma opening_on_reset f evs :
  opening env f true evs →
  ∃ pos sec usec ok,
    evs = EFtell f pos
          :: (if bool_decide (pos = 0%Z)
              then [EGettimeofday sec usec;
                    EFputs (banner_record env sec usec true) f ok]
              else []).
Proof.
  inversion 1 as [pos _ Hp|pos sec usec ok [?|Hp]]; [|done|].
  - exists pos, 0%Z, 0%Z, true. by rewrite bool_decide_eq_false_2.
  - exists pos, sec, usec, ok. by rewrite !bool_decide_eq_true_2.
Qed.

(** C9, amended: at the registration of a file sink the banner is
    written into the file whether the file is empty or not, after the
    offset of the file has been asked for; it announces a new log file
    exactly when that offset is zero.  After a successful reopening in
    a rotation, the banner is written into the file of a sink that is
    not temporary exactly when the offset of the reopened file is zero.
    The banner is the line [banner_line], when that is a C string that
    fits the buffer. *)
Theorem banner_on_open_and_rotation min max path fr lf i f f' st :
  os_fopen env (trace st) path = Some fr →
  needs_close lf = true → is_temporary lf = false → file lf = Some f →
  os_fclose env (trace st) f = true →
  os_fopen env (trace st ++ [EFclose f true]) (filename lf) = Some f' →
  (∃ st' pos sec usec ok,
     add_file_log env min max path st = Some (0%Z, st')
     ∧ new_events st st'
       = [EFopen path (Some fr); EFtell fr pos; EGettimeofday sec usec;
          EFputs (banner_record env sec usec (bool_decide (pos = 0%Z))) fr ok])
  ∧ (∃ st' pos sec usec ok,
       reset_log env i lf st = Some (0%Z, st')
       ∧ new_events st st'
         = EFclose f true :: EFopen (filename lf) (Some f') :: EFtell f' pos
           :: (if bool_decide (pos = 0%Z)
               then [EGettimeofday sec usec;
                     EFputs (banner_record env sec usec true) f' ok]
               else []))
  ∧ (∀ sec usec is_new,
       nul_free (chars (banner_line env sec usec is_new)) →
       String.length (banner_line env sec usec is_new) < 256 →
       banner_record env sec usec is_new = banner_line env sec usec is_new).
Proof.
  intros Hopen Hn Ht Hf Hclose Hreopen. split; [|split].
  3: { intros sec usec is_new. apply banner_record_line. }
  - pose proof (add_file_log_run env min max path st) as H.
    rewrite Hopen in H. destruct H as (st' & evs & Hrun & _ & _ & Htr & Ho).
    destruct (opening_on_registration _ _ Ho) as (pos & sec & usec & ok & ->).
    exists st', pos, sec, usec, ok. split; [done|]. by apply new_events_app.
  - unfold reset_log. rewrite Hn, Hf.
    unfold bind at 1. simpl. unfold bind at 1, fclose. rewrite Hclose. simpl.
    unfold bind at 1, fopen. simpl. rewrite Hreopen.
    unfold bind at 1, get_logfiles. simpl.
    unfold bind at 1, put_logfiles. simpl.
    set (st1 := set_logfiles _ _).
    destruct (log_tor_version_opening env (set_file (Some f') lf) f' true st1)
      as (st2 & evs & Hrun & _ & _ & Htr2 & Ho); [done..|].
    unfold bind. rewrite Hrun.
    destruct (opening_on_reset _ _ Ho) as (pos & sec & usec & ok & ->).
    exists st2, pos, sec, usec, ok. split; [done|].
    apply new_events_app. rewrite Htr2. simpl. by rewrite <- !app_assoc.
Qed.

End Rotation.


Lemma two_sinks_owned_have_handles : owned_have_handles (logfiles two_sinks).
Proof.
  unfold owned_have_handles. simpl.
  repeat (constructor; [by simpl; eauto|]). constructor.
Defined.

(** C6, counterexample: the sink owns its handle and the path would
    open, but closing the handle fails: the path is not opened again,
    and the sink is removed though no reopening failed. *)
Lemma reset_logs_close_failure :
  reset_logs env_close_fails two_sinks
  = Some (tt, {| logfiles := [callback_sink LOG_ERR LOG_ERR 9];
                 syslog_count := 0;
                 trace := [EFclose 5 false] |}).
Proof. by vm_compute. Qed.

(** C6, witness: a rotation where everything succeeds gives the file
    sink a new handle and leaves the callback sink alone. *)
Lemma reset_logs_rotates_witness :
  owned_have_handles (logfiles two_sinks)
  ∧ ∃ st',
      reset_logs env_ok two_sinks = Some (tt, st')
      ∧ logfiles st' = [file_sink LOG_INFO LOG_ERR "/var/log/tor/log" 11 true;
                        callback_sink LOG_ERR LOG_ERR 9].
Proof.
  split; [exact two_sinks_owned_have_handles|].
  destruct (reset_logs_rotates env_ok two_sinks two_sinks_owned_have_handles)
    as (st' & steps & Hrun & _).
  exists st'. split; [exact Hrun|].
  vm_compute in Hrun. by injection Hrun as <-.
Defined.

(** C9, counterexample: a file sink is registered on a file that
    already holds 4096 characters, and the banner is written into it all
    the same. *)
Lemma add_file_log_banner_on_nonempty_file :
  add_file_log env_appending LOG_INFO LOG_ERR "/var/log/tor/log" empty_state
  = Some (0%Z,
      {| logfiles := [file_sink LOG_INFO LOG_ERR "/var/log/tor/log" 10 true];
         syslog_count := 0;
         trace := [EFopen "/var/log/tor/log" (Some 10); EFtell 10 4096;
                   EGettimeofday 1102593600 123456;
                   EFputs ("Dec 09 12:00:00.123 [notice] Tor 0.0.9 opening log file."
                           +:+ String.String LF "") 10 true] |}).
Proof. by vm_compute. Qed.

(** C9, witness: registration on an empty file, and rotation of the
    first of [two_sinks] onto an empty file. *)
Lemma banner_on_open_and_rotation_witness :
  ∃ st' pos sec usec ok,
    reset_log env_ok 0 (file_sink LOG_INFO LOG_ERR "/var/log/tor/log" 5 true)
      two_sinks = Some (0%Z, st')
    ∧ new_events two_sinks st'
      = EFclose 5 true :: EFopen "/var/log/tor/log" (Some 11) :: EFtell 11 pos
        :: (if bool_decide (pos = 0%Z)
            then [EGettimeofday sec usec;
                  EFputs (banner_record env_ok sec usec true) 11 ok]
            else []).
Proof.
  apply (banner_on_open_and_rotation env_ok LOG_INFO LOG_ERR "/var/log/tor/debug" 10
           (file_sink LOG_INFO LOG_ERR "/var/log/tor/log" 5 true) 0 5 11 two_sinks);
    reflexivity.
Defined.

Example banner_of_a_new_file :
  banner_record env_ok 1102593600 123456 true
  = "Dec 09 12:00:00.123 [notice] Tor 0.0.9 opening new log file."
    +:+ String.String LF "".
Proof. by vm_compute. Qed.

(** * Truncation *)

Lemma truncated_record_has_no_bracket head head' :
  of_chars head +:+ "[...truncated" +:+ String.String LF ""
  ≠ head' +:+ "[...truncated]" +:+ String.String LF "".
Proof.
  intros H. apply (f_equal chars) in H.
  rewrite !chars_app, String.list_ascii_of_string_of_list_ascii in H.
  apply (f_equal reverse) in H. rewrite !reverse_app in H.
  simpl in H. by vm_compute in H.
Qed.

Section Truncation.

Context (env : env_t).

(** C4, what the code does: when the text of a message does not fit
    the buffer, the dispatch still returns and delivers to every sink
    that takes the message, but the record it delivers ends with
    "[...truncated" and the line terminator: the closing bracket of the
    marker is overwritten by the terminator, so that the record does not
    end with "[...truncated]" and the terminator. *)
Theorem logv_truncation_drops_bracket s sev funcname format st :
  let now := os_gettimeofday env (trace st ++ [EFormatMsg]) in
  let P := prefix_text env now.1 now.2 sev in
  let T := P +:+ label_text funcname +:+ format in
  let cap := LOGV_BUF_SIZE - 2 in
  sev_to_string s = Some sev →
  nul_free (chars T) →
  String.length (P +:+ label_text funcname) + 16 ≤ cap →
  cap ≤ String.length T →
  omap (takes s) (logfiles st) ≠ [] →
  ∃ st' record,
    logv env s funcname format st = Some (tt, st')
    ∧ deliveries (new_events st st') = omap (takes s) (logfiles st)
    ∧ Forall (consumes s record
                (of_chars (drop (String.length P) (chars record))))
        (new_events st st')
    ∧ record = of_chars (take (cap - 15) (chars T))
               +:+ "[...truncated" +:+ String.String LF ""
    ∧ ∀ head, record ≠ head +:+ "[...truncated]" +:+ String.String LF "".
Proof.
  intros now P T cap Hsev Hnul Hfit Hover Htakes.
  assert (is_severity s) as Hs by by eapply sev_to_string_Some_inv.
  destruct (logv_walk env s funcname format st Hs)
    as (st' & steps & fmt_evs & fm & Hrun & Hvis & Hnew & _ & _ & Hfmt).
  destruct (format_msg_record env (uninit LOGV_BUF_SIZE) LOGV_BUF_SIZE s sev
              funcname format st Hsev Hnul Hfit)
    as (buf & Hf & Hrec & Htxt); [apply length_uninit|].
  fold now P T cap in Hf, Hrec, Htxt.
  assert (record_text cap T
          = of_chars (take (cap - 15) (chars T))
            +:+ "[...truncated" +:+ String.String LF "") as Hcut.
  { unfold record_text.
    destruct (Nat.ltb_spec (String.length T) cap); [lia|done]. }
  exists st', (record_text cap T).
  destruct (omap (takes s) (logfiles st)) as [|t ts] eqn:Etk; [done|].
  destruct Hfmt as (fm0 & sec & usec & Hf' & -> & ->).
  rewrite Hf in Hf'. injection Hf' as <- _.
  destruct (visit_consumes _ _ _ _ _ Hvis) as [_ Hcons].
  simpl in Hcons. rewrite Hrec, Htxt in Hcons.
  split_and!; [done| | |done|].
  - rewrite Hnew. unfold deliveries. rewrite omap_app.
    fold (deliveries (concat steps.*1)).
    rewrite (visit_deliveries _ _ _ _ _ Hvis), Etk. done.
  - rewrite Hnew, Forall_app. split; [by repeat constructor|done].
  - intros head. rewrite Hcut. apply truncated_record_has_no_bracket.
Qed.

End Truncation.

(** On a message longer than the buffer, the record is cut to 10021
    characters; it ends with the marker less its closing bracket, and
    the line terminator. *)
Example format_msg_long_message :
  ∃ buf end_of_prefix st',
    format_msg env_ok (uninit LOGV_BUF_SIZE) LOGV_BUF_SIZE LOG_NOTICE None
      long_message empty_state
    = Some ((buf, end_of_prefix), st')
    ∧ String.length (c_str buf 0) = 10021
    ∧ string_suffix 16 (c_str buf 0) = "xx[...truncated" +:+ String.String LF ""
    ∧ string_suffix 15 (c_str buf 0) ≠ "[...truncated]" +:+ String.String LF "".
Proof.
  eexists _, _, _. split; [by vm_compute|]. by vm_compute.
Qed.

(** C4, witness: a message of 10100 characters dispatched at Notice to
    [two_sinks]: the file sink is written the record cut to 10021
    characters. *)
Lemma logv_truncation_drops_bracket_witness :
  ∃ st' record,
    logv env_ok LOG_NOTICE None long_message two_sinks = Some (tt, st')
    ∧ deliveries (new_events two_sinks st') = [TFile 5]
    ∧ Forall (consumes LOG_NOTICE record
                (of_chars (drop 29 (chars record))))
        (new_events two_sinks st')
    ∧ String.length record = 10021
    ∧ string_suffix 16 record = "xx[...truncated" +:+ String.String LF "".
Proof.
  destruct (logv_truncation_drops_bracket env_ok LOG_NOTICE "notice" None
              long_message two_sinks) as (st' & record & Hrun & Hd & Hc & Hr & _).
  - reflexivity.
  - apply nul_free_forallb. by vm_compute.
  - apply Nat.leb_le. by vm_compute.
  - apply Nat.leb_le. by vm_compute.
  - by vm_compute.
  - exists st', record. split_and!; [exact Hrun|exact Hd|exact Hc|..].
    + rewrite Hr. by vm_compute.
    + rewrite Hr. by vm_compute.
Defined.

(** The bootstrap of the application: a temporary console sink and a
    syslog sink are registered and marked temporary, the configured log
    file is registered, and the temporary sinks are closed.  The file
    sink alone remains; the syslog facility, opened for the one syslog
    sink, is closed with it. *)
Example bootstrap_scenario :
  (register_all env_ok [AddTemp; AddSyslog LOG_NOTICE LOG_ERR];;
   mark_logs_temp;;
   register_all env_ok [AddFile LOG_INFO LOG_ERR "/var/log/tor/log"];;
   close_temp_logs env_ok) empty_state
  = Some (tt,
      {| logfiles := [file_sink LOG_INFO LOG_ERR "/var/log/tor/log" 11 true];
         syslog_count := 0;
         trace := [EOpenlog; EFopen "/var/log/tor/log" (Some 11); EFtell 11 0;
                   EGettimeofday 1102593600 123456;
                   EFputs ("Dec 09 12:00:00.123 [notice] Tor 0.0.9 opening new log file."
                           +:+ String.String LF "") 11 true;
                   ECloselog] |}).
Proof. by vm_compute. Qed.

(** * The state stays consistent *)

Lemma facility_app tr evs : facility (tr ++ evs) = (facility tr + facility evs)%Z.
Proof.
  unfold facility. induction tr as [|e tr IH]; simpl; [done|]. rewrite IH. lia.
Qed.

Lemma facility_quiet tr evs :
  Forall (λ e, facility_step e = 0%Z) evs → facility (tr ++ evs) = facility tr.
Proof.
  intros H. rewrite facility_app.
  assert (facility evs = 0%Z) as ->; [|lia].
  unfold facility. induction H as [|e evs He _ IH]; simpl; [done|]. lia.
Qed.

Lemma syslog_refs_nonneg l : (0 ≤ syslog_refs l)%Z.
Proof. unfold syslog_refs. lia. Qed.

Lemma opening_quiet_events env f reset evs :
  opening env f reset evs → Forall (λ e, facility_step e = 0%Z) evs.
Proof. destruct 1; by repeat constructor. Qed.

Lemma visit_quiet_events s record text lf steps :
  Forall2 (λ l step, visit s record text l step.1 step.2) lf steps →
  Forall (λ e, facility_step e = 0%Z) (concat (steps.*1)).
Proof.
  induction 1 as [|l [evs kept] lf steps Hv _ IH]; [constructor|].
  rewrite fmap_cons, concat_cons, Forall_app. split; [|done].
  simpl in Hv. destruct Hv; by repeat constructor.
Qed.

Lemma rotation_quiet_events env lf steps :
  Forall2 (λ l step, rotation env l step.1 step.2) lf steps →
  Forall (λ e, facility_step e = 0%Z) (concat (steps.*1)).
Proof.
  induction 1 as [|l [evs kept] lf steps Hr _ IH]; [constructor|].
  rewrite fmap_cons, concat_cons, Forall_app. split; [|done].
  simpl in Hr. destruct Hr as [?|? ? ?|? ? ?|f f' evs' ? ? Ho]; try by repeat constructor.
  do 2 (constructor; [done|]).
  destruct (is_temporary l); [by subst|]. by eapply opening_quiet_events.
Qed.

Lemma visit_keeps_consistent s record text lf steps :
  Forall2 (λ l step, visit s record text l step.1 step.2) lf steps →
  owned_have_handles lf →
  owned_have_handles (omap snd steps)
  ∧ syslog_refs (omap snd steps) = syslog_refs lf
  ∧ omap snd steps `sublist_of` lf.
Proof.
  induction 1 as [|l [evs kept] lf steps Hv _ IH]; intros Hown.
  - split_and!; [done|done|constructor].
  - apply Forall_cons in Hown as [Hown1 Hown].
    destruct (IH Hown) as (IH1 & IH2 & IH3).
    simpl in Hv.
    assert (∀ f, takes s l = Some (TFile f) → syslog_ref l = false) as Hfile.
    { intros f. unfold takes, target_of, syslog_ref, owned_handle.
      destruct (accepts s l); [|done].
      destruct (is_syslog l); [done|]. by destruct (needs_close l), (file l). }
    rewrite omap_snd_cons.
    destruct Hv as [?|?|? ?|? ?|f Hf|f Hf]; simpl option_list; simpl app.
    1-4: split_and!; [by constructor|by rewrite !syslog_refs_cons, IH2|by constructor].
    all: split_and!; [done|rewrite syslog_refs_cons, (Hfile f Hf); lia|by constructor].
Qed.

Lemma rotation_keeps_consistent env lf steps :
  Forall2 (λ l step, rotation env l step.1 step.2) lf steps →
  owned_have_handles lf →
  owned_have_handles (omap snd steps)
  ∧ syslog_refs (omap snd steps) = syslog_refs lf.
Proof.
  induction 1 as [|l [evs kept] lf steps Hr _ IH]; intros Hown; [done|].
  apply Forall_cons in Hown as [Hown1 Hown].
  destruct (IH Hown) as (IH1 & IH2). simpl in Hr.
  assert (∀ f, needs_close l = true → file l = Some f → syslog_ref l = false) as Hfile.
  { intros f Hn Hf. unfold syslog_ref, owned_handle. by rewrite Hn, Hf. }
  rewrite omap_snd_cons.
  destruct Hr as [?|f Hn Hf|f Hn Hf|f f' evs' Hn Hf Ho]; simpl option_list; simpl app.
  - split; [by constructor|by rewrite !syslog_refs_cons, IH2].
  - split; [done|]. rewrite syslog_refs_cons, (Hfile f Hn Hf). lia.
  - split; [done|]. rewrite syslog_refs_cons, (Hfile f Hn Hf). lia.
  - split; [constructor; [by eauto|done]|].
    rewrite !syslog_refs_cons, IH2, (Hfile f Hn Hf).
    unfold syslog_ref, owned_handle. simpl. by rewrite Hn.
Qed.

Section Consistency.

Context (env : env_t).

(** [close_log] on a sink that is no longer in the registry:
    [syslog_count] still counts its reference, if it holds one. *)
Lemma close_log_balance lf st refs :
  (0 ≤ refs)%Z →
  syslog_count st = (refs + (if syslog_ref lf then 1 else 0))%Z →
  facility (trace st) = (if (0 <? syslog_count st)%Z then 1 else 0)%Z →
  ∃ st' evs,
    close_log env lf st = Some (tt, st')
    ∧ logfiles st' = logfiles st
    ∧ trace st' = trace st ++ evs
    ∧ closed_handles evs = option_list (owned_handle lf)
    ∧ syslog_count st' = refs
    ∧ facility (trace st') = (if (0 <? refs)%Z then 1 else 0)%Z.
Proof.
  intros Hrefs Hcount Hfac.
  unfold close_log, syslog_ref, owned_handle in *.
  assert (∀ st0 : state, trace st0 ++ [] = trace st0) as Hnil
    by (intros; apply app_nil_r).
  destruct (needs_close lf), (file lf) as [f|]; simpl in *.
  1: { unfold bind, fclose, ret. simpl.
       eexists _, [EFclose f _]. split_and!; try done; simpl; [lia|].
       rewrite facility_quiet by by repeat constructor.
       rewrite Hfac. by replace (syslog_count st) with refs by lia. }
  all: destruct (is_syslog lf).
  all: try (exists st, []; unfold ret; split_and!; try done; [lia|];
            rewrite Hfac; by replace (syslog_count st) with refs by lia).
  all: unfold closelog_if_last.
  all: replace (syslog_count st - 1)%Z with refs by lia.
  all: destruct (Z.eqb_spec refs 0) as [->|Hne].
  all: try (eexists _, [ECloselog]; split_and!; try done; simpl;
            rewrite facility_app, Hfac, Hcount; by simpl).
  all: eexists _, []; split_and!; try done; simpl; rewrite ?app_nil_r; try done.
  all: rewrite Hfac, Hcount.
  all: destruct (Z.ltb_spec 0 (refs + 1)), (Z.ltb_spec 0 refs); lia.
Qed.

Lemma close_logs_loop_consistent l :
  ∀ st,
    syslog_count st = syslog_refs l →
    facility (trace st) = (if (0 <? syslog_count st)%Z then 1 else 0)%Z →
    ∃ st' evs,
      close_logs_loop env l st = Some (tt, st')
      ∧ logfiles st' = match l with [] => logfiles st | _ :: _ => [] end
      ∧ trace st' = trace st ++ evs
      ∧ closed_handles evs = omap owned_handle l
      ∧ syslog_count st' = 0%Z
      ∧ facility (trace st') = 0%Z.
Proof.
  induction l as [|victim next IH]; intros st Hcount Hfac.
  - exists st, []. rewrite app_nil_r. split_and!; try done.
    rewrite Hfac, Hcount. done.
  - simpl. unfold bind at 1, put_logfiles.
    rewrite syslog_refs_cons in Hcount.
    destruct (close_log_balance victim (set_logfiles next st) (syslog_refs next))
      as (st1 & evs1 & Hc & Hlf1 & Htr1 & Hcl1 & Hsc1 & Hfac1);
      [apply syslog_refs_nonneg|simpl; lia|done|].
    unfold bind at 1. rewrite Hc.
    destruct (IH st1) as (st' & evs & Hloop & Hlf & Htr & Hcl & Hsc & Hfac');
      [done|by rewrite Hsc1|].
    rewrite Hloop. exists st', (evs1 ++ evs).
    split_and!; [done| | | |done|done].
    + rewrite Hlf. destruct next; [|done]. by rewrite Hlf1.
    + rewrite Htr, Htr1. simpl. by rewrite app_assoc.
    + rewrite closed_handles_app, Hcl1, Hcl. by destruct (owned_handle victim).
Qed.

Lemma close_temp_logs_loop_consistent lf :
  ∀ pre st,
    logfiles st = pre ++ lf →
    syslog_count st = syslog_refs (pre ++ lf) →
    facility (trace st) = (if (0 <? syslog_count st)%Z then 1 else 0)%Z →
    ∃ st' evs,
      close_temp_logs_loop env lf (length pre) st = Some (tt, st')
      ∧ logfiles st' = pre ++ filter (λ l, is_temporary l = false) lf
      ∧ trace st' = trace st ++ evs
      ∧ closed_handles evs
        = omap owned_handle (filter (λ l, is_temporary l = true) lf)
      ∧ syslog_count st' = syslog_refs (logfiles st')
      ∧ facility (trace st') = (if (0 <? syslog_count st')%Z then 1 else 0)%Z.
Proof.
  induction lf as [|l next IH]; intros pre st Hl Hcount Hfac.
  - exists st, []. rewrite !app_nil_r in *. split_and!; try done.
    by rewrite Hl.
  - simpl. rewrite !filter_cons. destruct (is_temporary l) eqn:Et.
    + unfold bind at 1, get_logfiles. unfold bind at 1, put_logfiles.
      rewrite Hl, delete_middle.
      destruct (close_log_balance l (set_logfiles (pre ++ next) st)
                  (syslog_refs (pre ++ next)))
        as (st1 & evs1 & Hc & Hlf1 & Htr1 & Hcl1 & Hsc1 & Hfac1);
        [apply syslog_refs_nonneg| |done|].
      { simpl. rewrite Hcount, !syslog_refs_app, syslog_refs_cons. lia. }
      unfold bind at 1. rewrite Hc.
      destruct (IH pre st1 Hlf1) as (st' & evs & Hloop & Hlf & Htr & Hcl & Hsc & Hfac');
        [done|by rewrite Hsc1|].
      rewrite Hloop. exists st', (evs1 ++ evs).
      rewrite decide_False, decide_True by done.
      split_and!; [done|done| | |done|done].
      * rewrite Htr, Htr1. simpl. by rewrite app_assoc.
      * rewrite closed_handles_app, Hcl1, Hcl. simpl.
        by destruct (owned_handle l).
    + rewrite decide_True, decide_False by done.
      assert (logfiles st = (pre ++ [l]) ++ next) as Hl' by by rewrite <- app_assoc.
      destruct (IH (pre ++ [l]) st Hl') as (st' & evs & Hloop & Hlf & Hrest);
        [by rewrite <- app_assoc|done|].
      rewrite length_app, Nat.add_1_r in Hloop.
      exists st', evs. split_and!; [done| |apply Hrest..].
      rewrite Hlf. by rewrite <- app_assoc.
Qed.

Lemma register_consistent r st :
  consistent st →
  ∃ st',
    register env r st = Some (tt, st')
    ∧ consistent st'
    ∧ logfiles st'
      = option_list (registered r (request_opens env (trace st) r)) ++ logfiles st.
Proof.
  intros (Hown & Hcount & Hfac).
  destruct r as [min max name stream| |min max cb|min max path|min max]; simpl.
  - eexists. split; [done|]. split; [|done]. unfold consistent. simpl.
    split_and!; try done. by constructor.
  - eexists. split; [done|]. split; [|done]. unfold consistent. simpl.
    split_and!; try done. by constructor.
  - eexists. split; [done|]. split; [|done]. unfold consistent. simpl.
    split_and!; try done. by constructor.
  - unfold bind at 1. pose proof (add_file_log_run env min max path st) as H.
    destruct (os_fopen env (trace st) path) as [f|].
    + destruct H as (st' & evs & -> & Hlf & Hsc & Htr & Ho).
      eexists. split; [done|]. split; [|done]. unfold consistent. simpl.
      split_and!.
      * rewrite Hlf. constructor; [by eauto|done].
      * by rewrite Hsc, Hlf, syslog_refs_cons.
      * rewrite Htr, Hsc.
        rewrite (facility_quiet _ (EFopen path (Some f) :: evs)); [done|].
        constructor; [done|]. by eapply opening_quiet_events.
    + rewrite H. eexists. split; [done|]. split; [|done].
      unfold consistent. simpl.
      split_and!; try done. by rewrite facility_quiet by by repeat constructor.
  - unfold bind, add_syslog_log, bind, openlog_if_first, get_logfiles,
      put_logfiles, ret.
    pose proof (syslog_refs_nonneg (logfiles st)) as Hnn.
    destruct (Z.eqb_spec (syslog_count st) 0) as [Hz|Hnz];
      (eexists; split; [done|]; split; [|done]; unfold consistent; simpl;
       split_and!; [by constructor|rewrite syslog_refs_cons; simpl; lia|]).
    + rewrite facility_app, Hfac, Hz. simpl. done.
    + rewrite Hfac.
      destruct (Z.ltb_spec 0 (syslog_count st)),
        (Z.ltb_spec 0 (syslog_count st + 1)); lia.
Qed.

Lemma logv_consistent s funcname format st :
  is_severity s → consistent st →
  ∃ st',
    logv env s funcname format st = Some (tt, st')
    ∧ consistent st'
    ∧ logfiles st' `sublist_of` logfiles st.
Proof.
  intros Hs (Hown & Hcount & Hfac).
  destruct (logv_loop_walk env s funcname format Hs (logfiles st) [] None st eq_refl)
    as (st' & steps & fmt_evs & fm & Hrun & Hvis & Htr & Hlf & Hsc & Hfmt).
  destruct (visit_keeps_consistent _ _ _ _ _ Hvis Hown) as (Hown' & Hrefs & Hsub).
  simpl in Hlf.
  exists st'. split; [exact Hrun|]. split; [|by rewrite Hlf]. split_and!.
  - by rewrite Hlf.
  - by rewrite Hsc, Hlf, Hrefs.
  - rewrite Htr, Hsc, app_assoc, facility_quiet, facility_quiet; [done| |].
    + destruct (omap (takes s) (logfiles st)).
      * destruct Hfmt as [_ ->]. constructor.
      * destruct Hfmt as (? & ? & ? & _ & _ & ->). by repeat constructor.
    + by eapply visit_quiet_events.
Qed.

Lemma reset_logs_consistent st :
  consistent st →
  ∃ st', reset_logs env st = Some (tt, st') ∧ consistent st'.
Proof.
  intros (Hown & Hcount & Hfac).
  destruct (reset_logs_loop_rotation env (logfiles st) [] st eq_refl Hown)
    as (st' & steps & Hrun & Hrot & Htr & Hlf & Hsc).
  destruct (rotation_keeps_consistent _ _ _ Hrot Hown) as (Hown' & Hrefs).
  simpl in Hlf.
  exists st'. split; [exact Hrun|]. split_and!.
  - by rewrite Hlf.
  - by rewrite Hsc, Hlf, Hrefs.
  - rewrite Htr, Hsc, facility_quiet; [done|]. by eapply rotation_quiet_events.
Qed.

Lemma mark_logs_temp_consistent st :
  consistent st →
  ∃ st', mark_logs_temp st = Some (tt, st') ∧ consistent st'.
Proof.
  intros (Hown & Hcount & Hfac).
  eexists. split; [done|]. unfold consistent. simpl.
  destruct (release_marked_temporary (logfiles st)) as [_ Hr].
  split_and!; [|by rewrite Hr|done].
  unfold owned_have_handles in *. rewrite Forall_fmap.
  eapply Forall_impl; [exact Hown|]. by intros lf.
Qed.

Lemma close_temp_logs_consistent st :
  consistent st →
  ∃ st',
    close_temp_logs env st = Some (tt, st')
    ∧ consistent st'
    ∧ logfiles st' = filter (λ lf, is_temporary lf = false) (logfiles st).
Proof.
  intros (Hown & Hcount & Hfac).
  destruct (close_temp_logs_loop_consistent (logfiles st) [] st eq_refl Hcount Hfac)
    as (st' & evs & Hrun & Hlf & Htr & Hcl & Hsc & Hfac').
  simpl in Hlf.
  exists st'. split; [exact Hrun|]. split; [|done]. split_and!; [|done|done].
  rewrite Hlf. unfold owned_have_handles in *. rewrite Forall_forall in *.
  intros lf [_ Hin]%list_elem_of_filter. by apply Hown.
Qed.

Lemma close_logs_consistent st :
  consistent st →
  ∃ st' evs,
    close_logs env st = Some (tt, st')
    ∧ consistent st'
    ∧ logfiles st' = []
    ∧ trace st' = trace st ++ evs
    ∧ closed_handles evs = omap owned_handle (logfiles st)
    ∧ syslog_count st' = 0%Z
    ∧ facility (trace st') = 0%Z.
Proof.
  intros (Hown & Hcount & Hfac).
  destruct (close_logs_loop_consistent (logfiles st) st Hcount Hfac)
    as (st' & evs & Hrun & Hlf & Htr & Hcl & Hsc & Hfac').
  assert (logfiles st' = []) as Hnil.
  { rewrite Hlf. by destruct (logfiles st) eqn:E. }
  exists st', evs. split; [exact Hrun|].
  split_and!; try done.
  unfold consistent. rewrite Hnil, Hsc, Hfac'. split_and!; [constructor|done|done].
Qed.

Lemma perform_consistent o st :
  well_formed o → consistent st →
  ∃ st', perform env o st = Some (tt, st') ∧ consistent st'.
Proof.
  intros Hwf Hc. destruct o as [r|s fn fmt| | | |]; simpl in *.
  - destruct (register_consistent r st Hc) as (st' & ? & ? & _). eauto.
  - destruct (logv_consistent s fn fmt st Hwf Hc) as (st' & ? & ? & _). eauto.
  - by apply reset_logs_consistent.
  - by apply mark_logs_temp_consistent.
  - destruct (close_temp_logs_consistent st Hc) as (st' & ? & ? & _). eauto.
  - destruct (close_logs_consistent st Hc) as (st' & ? & ? & ? & _). eauto.
Qed.

(** X1: from a consistent state, every sequence of operations of the
    interface, with messages logged at severities of the scale, runs to
    its end: no assertion fails and no [NULL] stream is used.  The state
    it reaches is consistent again: [syslog_count] is the number of
    registered sinks that hold the syslog facility, and [openlog] and
    [closelog] have been called so that the facility is open exactly
    when there is such a sink. *)
Theorem perform_all_keeps_consistent ops :
  ∀ st,
    consistent st → Forall well_formed ops →
    ∃ st', perform_all env ops st = Some (tt, st') ∧ consistent st'.
Proof.
  induction ops as [|o ops IH]; intros st Hc Hwf.
  - by exists st.
  - apply Forall_cons in Hwf as [Hwf1 Hwf].
    destruct (perform_consistent o st Hwf1 Hc) as (st1 & Hrun & Hc1).
    destruct (IH st1 Hc1 Hwf) as (st' & Hrest & Hc').
    exists st'. split; [|done].
    simpl. unfold bind. by rewrite Hrun.
Qed.

(** X2: [close_logs] on a consistent state leaves an empty registry.
    It closes the streams of the sinks that own one, each once and in
    the order of the registry, and no other stream; afterwards
    [syslog_count] is zero and the syslog facility is closed. *)
Theorem close_logs_shuts_down st :
  consistent st →
  ∃ st',
    close_logs env st = Some (tt, st')
    ∧ logfiles st' = []
    ∧ closed_handles (new_events st st') = omap owned_handle (logfiles st)
    ∧ syslog_count st' = 0%Z
    ∧ facility (trace st') = 0%Z.
Proof.
  intros (Hown & Hcount & Hfac).
  destruct (close_logs_loop_consistent (logfiles st) st Hcount Hfac)
    as (st' & evs & Hrun & Hlf & Htr & Hcl & Hsc & Hfac').
  exists st'. split; [exact Hrun|]. split_and!; [|by rewrite (new_events_app _ _ _ Htr)|done..].
  rewrite Hlf. by destruct (logfiles st) eqn:E.
Qed.

Lemma close_log_set_logfiles lf l st :
  close_log env lf (set_logfiles l st)
  = match close_log env lf st with
    | Some (u, st') => Some (u, set_logfiles l st')
    | None => None
    end.
Proof.
  unfold close_log.
  destruct (needs_close lf), (file lf), (is_syslog lf); try done.
  all: unfold closelog_if_last; simpl; by destruct (_ =? 0)%Z.
Qed.

Lemma close_log_ignores_temporary b lf st :
  close_log env (set_is_temporary b lf) st = close_log env lf st.
Proof. done. Qed.

Lemma close_marked_is_close_all l :
  ∀ st,
    close_temp_logs_loop env (set_is_temporary true <$> l) 0
      (set_logfiles (set_is_temporary true <$> l) st)
    = close_logs_loop env l (set_logfiles l st).
Proof.
  induction l as [|victim next IH]; intros st; [done|].
  rewrite fmap_cons. simpl.
  unfold bind, get_logfiles, put_logfiles. simpl.
  rewrite close_log_ignores_temporary.
  change (set_logfiles (set_is_temporary true <$> next)
            (set_logfiles (set_is_temporary true victim
                           :: (set_is_temporary true <$> next)) st))
    with (set_logfiles (set_is_temporary true <$> next) st).
  change (set_logfiles next (set_logfiles (victim :: next) st))
    with (set_logfiles next st).
  rewrite !close_log_set_logfiles.
  destruct (close_log env victim st) as [[[] st1]|]; [|done].
  apply IH.
Qed.

(** X3: marking every sink temporary and closing the temporary sinks is
    a shutdown: [mark_logs_temp] followed by [close_temp_logs] makes the
    same calls and reaches the same state as [close_logs]. *)
Theorem mark_and_close_temp_is_close_logs st :
  (mark_logs_temp;; close_temp_logs env) st = close_logs env st.
Proof.
  unfold mark_logs_temp, close_temp_logs, close_logs, bind, get_logfiles,
    put_logfiles. simpl.
  rewrite close_marked_is_close_all.
  by destruct st.
Qed.

Lemma close_temp_logs_loop_none lf :
  ∀ i st,
    Forall (λ l, is_temporary l = false) lf →
    close_temp_logs_loop env lf i st = Some (tt, st).
Proof.
  induction lf as [|l next IH]; intros i st Hno; [done|].
  apply Forall_cons in Hno as [Hl Hno]. simpl. rewrite Hl. by apply IH.
Qed.

(** X4: on a registry without temporary sinks, registering the
    bootstrap sink with [add_temp_log] and closing the temporary sinks
    restores the state: the registry is what it was, and no call has
    been made, the console stream in particular is not closed. *)
Theorem add_temp_log_then_close_temp st :
  Forall (λ lf, is_temporary lf = false) (logfiles st) →
  (add_temp_log;; close_temp_logs env) st = Some (tt, st).
Proof.
  intros Hno.
  unfold add_temp_log, add_stream_log, update_head, close_temp_logs, bind,
    get_logfiles, put_logfiles. simpl.
  unfold bind, get_logfiles, put_logfiles, close_log, ret. simpl.
  rewrite close_temp_logs_loop_none by done.
  by destruct st.
Qed.

Lemma register_adds r st :
  ∃ st',
    register env r st = Some (tt, st')
    ∧ logfiles st'
      = option_list (registered r (request_opens env (trace st) r)) ++ logfiles st.
Proof.
  destruct r as [min max name stream| |min max cb|min max path|min max]; simpl.
  - by eexists.
  - by eexists.
  - by eexists.
  - unfold bind at 1. pose proof (add_file_log_run env min max path st) as H.
    destruct (os_fopen env (trace st) path) as [f|].
    + destruct H as (st' & evs & -> & Hlf & _). by eexists.
    + rewrite H. by eexists.
  - unfold bind, add_syslog_log, bind, openlog_if_first, get_logfiles,
      put_logfiles, ret.
    destruct (syslog_count st =? 0)%Z; by eexists.
Qed.

(** X5: a sink is served from its registration on, and before the
    sinks registered earlier: a dispatch that follows a registration
    delivers first to the new sink, if it takes the message, and then
    to the sinks of the registry as it was, in their order. *)
Theorem registered_sink_is_served_first r s funcname format st :
  is_severity s →
  ∃ st1 st2,
    register env r st = Some (tt, st1)
    ∧ logv env s funcname format st1 = Some (tt, st2)
    ∧ logfiles st1
      = option_list (registered r (request_opens env (trace st) r)) ++ logfiles st
    ∧ deliveries (new_events st1 st2)
      = omap (takes s) (option_list (registered r (request_opens env (trace st) r)))
        ++ omap (takes s) (logfiles st).
Proof.
  intros Hs.
  destruct (register_adds r st) as (st1 & Hreg & Hlf1).
  destruct (logv_walk env s funcname format st1 Hs)
    as (st2 & steps & fmt_evs & fm & Hrun & Hvis & Hnew & _ & _ & Hfmt).
  exists st1, st2. split_and!; [done..|].
  rewrite <- omap_app, <- Hlf1, Hnew. unfold deliveries. rewrite omap_app.
  fold (deliveries (concat steps.*1)).
  rewrite (visit_deliveries _ _ _ _ _ Hvis).
  destruct (omap (takes s) (logfiles st1)) eqn:E.
  - by destruct Hfmt as [_ ->].
  - by destruct Hfmt as (? & ? & ? & _ & _ & ->).
Qed.

Lemma logv_loop_skips s funcname format lf :
  ∀ i formatted st,
    Forall (λ l, takes s l = None) lf →
    logv_loop env s funcname format lf i formatted st = Some (tt, st).
Proof.
  induction lf as [|l next IH]; intros i formatted st Hno; [done|].
  apply Forall_cons in Hno as [Hl Hno]. simpl.
  unfold bind, logv_body.
  destruct (takes_None_inv _ _ Hl) as [->|[-> ->]]; simpl; by apply IH.
Qed.

(** X6: [get_min_log_level] is a sound test for skipping a message: a
    dispatch at a severity numerically above the threshold it answers
    delivers to no sink, does not format the message, makes no call and
    leaves the state as it is, whatever the severity is. *)
Theorem logv_above_threshold s funcname format st m st0 :
  get_min_log_level st = Some (m, st0) → (m < s)%Z →
  logv env s funcname format st = Some (tt, st).
Proof.
  unfold get_min_log_level, bind, get_logfiles, ret. intros [= <- _] Hlt.
  rewrite foldl_min_level in Hlt.
  unfold logv, bind, get_logfiles. apply logv_loop_skips.
  pose proof (foldr_max_upper (loglevel <$> logfiles st) LOG_ERR) as Hup.
  rewrite Forall_fmap in Hup.
  eapply Forall_impl; [exact Hup|]. simpl. intros lf Hle.
  unfold takes, accepts.
  by rewrite (bool_decide_eq_false_2 (s ≤ loglevel lf)%Z), andb_false_r by lia.
Qed.

(** X7: a dispatch only delivers and unlinks.  The calls it makes are
    to the clock, to write and flush files, to syslog and to callbacks:
    it closes and opens no file, also not the file of a sink it removes,
    and leaves the syslog facility alone.  The registry it leaves is a
    sublist of the registry it found, and the same registry when no
    write and no flush failed. *)
Theorem logv_only_unlinks s funcname format st :
  is_severity s →
  ∃ st',
    logv env s funcname format st = Some (tt, st')
    ∧ Forall is_dispatch_call (new_events st st')
    ∧ closed_handles (new_events st st') = []
    ∧ syslog_count st' = syslog_count st
    ∧ logfiles st' `sublist_of` logfiles st
    ∧ (¬ write_failed (new_events st st') → logfiles st' = logfiles st).
Proof.
  intros Hs.
  destruct (logv_walk env s funcname format st Hs)
    as (st' & steps & fmt_evs & fm & Hrun & Hvis & Hnew & Hlf & Hsc & Hfmt).
  destruct (visit_without_failure _ _ _ _ _ Hvis) as [Hcalls Hsame].
  assert (Forall is_dispatch_call fmt_evs) as Hfm.
  { destruct (omap (takes s) (logfiles st)).
    - destruct Hfmt as [_ ->]. constructor.
    - destruct Hfmt as (? & ? & ? & _ & _ & ->). by repeat constructor. }
  assert (Forall is_dispatch_call (new_events st st')) as Hall.
  { rewrite Hnew, Forall_app. by split. }
  exists st'. split_and!; [done|done| |done| |].
  - clear -Hall. unfold closed_handles.
    induction Hall as [|e evs He _ IH]; [done|].
    simpl. by destruct e.
  - rewrite Hlf. clear -Hvis.
    induction Hvis as [|l [evs kept] lf steps Hv _ IH]; [constructor|].
    rewrite omap_snd_cons. simpl in Hv.
    destruct Hv; simpl; by constructor.
  - intros Hno. rewrite Hlf. apply Hsame. intros Hf. apply Hno.
    rewrite Hnew. unfold write_failed. rewrite Exists_app. by right.
Qed.

End Consistency.

(** * Edges of the dispatch *)

Lemma sev_to_string_None s : ¬ is_severity s → sev_to_string s = None.
Proof.
  intros Hs. destruct (sev_to_string s) as [name|] eqn:E; [|done].
  destruct Hs. by eapply sev_to_string_Some_inv.
Qed.

Section Edges.

Context (env : env_t).

Lemma format_msg_unknown_severity buf buf_len s funcname format st :
  sev_to_string s = None →
  format_msg env buf buf_len s funcname format st = None.
Proof.
  intros Hs.
  unfold format_msg, _log_prefix, bind, emit, tor_gettimeofday. simpl.
  destruct (strftime _ _ _ _) as [b1 n1]. by rewrite Hs.
Qed.

Lemma logv_loop_unknown_severity s funcname format lf :
  sev_to_string s = None →
  ∀ i st,
    omap (takes s) lf ≠ [] →
    logv_loop env s funcname format lf i None st = None.
Proof.
  intros Hs. induction lf as [|l next IH]; intros i st Htk; [done|].
  simpl. unfold bind at 1, logv_body.
  destruct (takes s l) as [t|] eqn:Et.
  - destruct (takes_Some_inv _ _ _ Et) as (-> & -> & _).
    unfold bind. by rewrite format_msg_unknown_severity.
  - assert (omap (takes s) next ≠ []) as Hnext.
    { intros E. apply Htk. simpl. by rewrite Et. }
    destruct (takes_None_inv _ _ Et) as [->|[-> ->]]; simpl; by apply IH.
Qed.

(** X8: a severity outside the scale fails the assertion of
    [sev_to_string] as soon as a sink takes the message.  The dispatch
    of such a severity aborts when the band of some sink with a target
    contains it (registration does not check the bounds it is given),
    and returns without a call or a change when no sink takes it. *)
Theorem logv_severity_off_scale s funcname format st :
  ¬ is_severity s →
  if decide (omap (takes s) (logfiles st) = [])
  then logv env s funcname format st = Some (tt, st)
  else logv env s funcname format st = None.
Proof.
  intros Hs%sev_to_string_None.
  unfold logv, bind, get_logfiles.
  destruct (decide _) as [Hnone|Hsome].
  - apply logv_loop_skips.
    induction (logfiles st) as [|l next IH]; [constructor|].
    simpl in Hnone. destruct (takes s l) eqn:Et; [done|].
    constructor; [done|by apply IH].
  - by apply logv_loop_unknown_severity.
Qed.

(** X9: the layout of a record that fits the buffer.  The time
    stamp with the bracketed severity, the label (the name of the
    function followed by "(): ", if one is given) and the message
    contain no [NUL] character, and are together shorter than the 10022
    characters that [format_msg] fills.  Then a file is written the
    three of them and a line terminator; syslog and the callbacks are
    handed the same without the time stamp and the severity.  Every sink
    that takes the message is served. *)
Theorem logv_record_layout s sev funcname format st :
  let now := os_gettimeofday env (trace st ++ [EFormatMsg]) in
  let P := prefix_text env now.1 now.2 sev in
  let T := P +:+ label_text funcname +:+ format in
  sev_to_string s = Some sev →
  nul_free (chars T) →
  String.length T < LOGV_BUF_SIZE - 2 →
  ∃ st',
    logv env s funcname format st = Some (tt, st')
    ∧ deliveries (new_events st st') = omap (takes s) (logfiles st)
    ∧ Forall (consumes s
                (P +:+ label_text funcname +:+ format +:+ String.String LF "")
                (label_text funcname +:+ format +:+ String.String LF ""))
        (new_events st st').
Proof.
  intros now P T Hsev Hnul Hshort.
  assert (is_severity s) as Hs by by eapply sev_to_string_Some_inv.
  destruct (logv_walk env s funcname format st Hs)
    as (st' & steps & fmt_evs & fm & Hrun & Hvis & Hnew & _ & _ & Hfmt).
  exists st'. split; [done|].
  assert (deliveries (new_events st st') = omap (takes s) (logfiles st)) as Hd.
  { rewrite Hnew. unfold deliveries. rewrite omap_app.
    fold (deliveries (concat steps.*1)).
    rewrite (visit_deliveries _ _ _ _ _ Hvis).
    destruct (omap (takes s) (logfiles st)).
    - by destruct Hfmt as [_ ->].
    - by destruct Hfmt as (? & ? & ? & _ & _ & ->). }
  split; [done|].
  destruct (omap (takes s) (logfiles st)) as [|t ts] eqn:Etk.
  { rewrite Hnew. destruct Hfmt as [_ ->]. simpl.
    rewrite Hnew in Hd. simpl in Hd.
    clear -Hvis Hd.
    induction Hvis as [|l [evs kept] lf steps Hv _ IH]; [constructor|].
    rewrite fmap_cons, concat_cons in *. unfold deliveries in Hd.
    rewrite omap_app in Hd. apply app_eq_nil in Hd as [Hd1 Hd2].
    apply Forall_app. split; [|by apply IH].
    simpl in Hv. destruct Hv; simpl in Hd1; by try constructor. }
  destruct (format_msg_fits env (uninit LOGV_BUF_SIZE) LOGV_BUF_SIZE s sev
              funcname format st Hsev Hnul Hshort)
    as (buf & Hf & Hrec & Htxt); [apply length_uninit|].
  fold now P in Hf, Hrec, Htxt.
  destruct Hfmt as (fm0 & sec & usec & Hf' & -> & ->).
  rewrite Hf in Hf'. injection Hf' as <- _.
  destruct (visit_consumes _ _ _ _ _ Hvis) as [_ Hcons].
  simpl in Hcons. rewrite Hrec, Htxt in Hcons.
  rewrite Hnew, Forall_app. split; [by repeat constructor|done].
Qed.

(** X10: releasing twice releases once.  A second [close_temp_logs],
    or a second [close_logs], right after the first makes no call and
    changes nothing: no handle is closed twice, no syslog reference is
    given back twice. *)
Theorem release_is_idempotent st :
  (close_temp_logs env;; close_temp_logs env) st = close_temp_logs env st
  ∧ (close_logs env;; close_logs env) st = close_logs env st.
Proof.
  split.
  - destruct (close_temp_logs_loop_releases env (logfiles st) [] st eq_refl)
      as (st' & evs & Hrun & Hlf & _).
    assert (close_temp_logs env st = Some (tt, st')) as Hc by exact Hrun.
    unfold bind. rewrite Hc.
    unfold close_temp_logs, bind, get_logfiles.
    apply close_temp_logs_loop_none.
    rewrite Hlf. simpl. apply Forall_forall. intros l.
    by rewrite list_elem_of_filter; intros [? _].
  - unfold bind at 1.
    destruct (close_logs_releases env st) as (st' & evs & Hrun & Hlf & _).
    rewrite Hrun. unfold close_logs, bind, get_logfiles. by rewrite Hlf.
Qed.

End Edges.

(** X11: rendering and parsing a severity name are inverse to each
    other.  The name [log_level_to_string] gives for a level parses
    back to that level; and when [parse_log_level] accepts a string,
    the level it answers is one of the five of the scale and renders as
    that string with its ASCII letters in lower case. *)
Theorem severity_name_round_trip :
  (∀ s name, log_level_to_string s = Some name → parse_log_level name = s)
  ∧ (∀ level,
       parse_log_level level ≠ (-1)%Z →
       is_severity (parse_log_level level)
       ∧ log_level_to_string (parse_log_level level)
         = Some (lowercase (cstring level))).
Proof.
  split.
  - intros s name. unfold log_level_to_string, sev_to_string.
    destruct (Z.eqb_spec s LOG_DEBUG) as [->|_]; [by intros [= <-]|].
    destruct (Z.eqb_spec s LOG_INFO) as [->|_]; [by intros [= <-]|].
    destruct (Z.eqb_spec s LOG_NOTICE) as [->|_]; [by intros [= <-]|].
    destruct (Z.eqb_spec s LOG_WARN) as [->|_]; [by intros [= <-]|].
    destruct (Z.eqb_spec s LOG_ERR) as [->|_]; [by intros [= <-]|done].
  - intros level. rewrite parse_log_level_table.
    unfold severity_of_name, is_severity, severities.
    repeat case_decide; try done.
    all: intros _; split; [set_solver|].
    all: by match goal with H : lowercase _ = _ |- _ => rewrite H end.
Qed.

(** * The properties at concrete inputs *)

Lemma consistent_empty_state : consistent empty_state.
Proof. unfold consistent. simpl. split_and!; [constructor|done|done]. Defined.

Lemma consistent_two_sinks : consistent two_sinks.
Proof.
  unfold consistent. split_and!; [exact two_sinks_owned_have_handles|done|done].
Defined.

Lemma severity_LOG_WARN : is_severity LOG_WARN.
Proof. unfold is_severity, severities. by repeat constructor. Defined.

Lemma well_formed_session : Forall well_formed session.
Proof.
  unfold session.
  repeat (constructor;
          [first [exact I|exact severity_LOG_NOTICE|exact severity_LOG_WARN]|]).
  constructor.
Defined.

(** X1, witness: the session of a run of Tor, from the bootstrap to the
    shutdown, on the empty state. *)
Lemma perform_all_keeps_consistent_witness :
  consistent empty_state ∧ Forall well_formed session
  ∧ ∃ st',
      perform_all env_ok session empty_state = Some (tt, st')
      ∧ consistent st'
      ∧ logfiles st' = [] ∧ syslog_count st' = 0%Z.
Proof.
  split; [exact consistent_empty_state|]. split; [exact well_formed_session|].
  destruct (perform_all_keeps_consistent env_ok session empty_state
              consistent_empty_state well_formed_session) as (st' & Hrun & Hc).
  exists st'. split; [exact Hrun|]. split; [exact Hc|].
  vm_compute in Hrun. by injection Hrun as <-.
Defined.

(** X2, witness: the shutdown of [two_sinks] closes the handle of the
    file sink, and nothing else. *)
Lemma close_logs_shuts_down_witness :
  consistent two_sinks
  ∧ ∃ st',
      close_logs env_ok two_sinks = Some (tt, st')
      ∧ logfiles st' = []
      ∧ closed_handles (new_events two_sinks st') = [5].
Proof.
  split; [exact consistent_two_sinks|].
  destruct (close_logs_shuts_down env_ok two_sinks consistent_two_sinks)
    as (st' & Hrun & Hlf & Hcl & _).
  exists st'. split; [exact Hrun|]. split; [exact Hlf|].
  rewrite Hcl. reflexivity.
Defined.

(** X4, witness: [two_sinks] has no temporary sink. *)
Lemma add_temp_log_then_close_temp_witness :
  Forall (λ lf, is_temporary lf = false) (logfiles two_sinks)
  ∧ (add_temp_log;; close_temp_logs env_ok) two_sinks = Some (tt, two_sinks).
Proof.
  assert (Forall (λ lf, is_temporary lf = false) (logfiles two_sinks)) as Hno.
  { simpl. by repeat constructor. }
  split; [exact Hno|].
  exact (add_temp_log_then_close_temp env_ok two_sinks Hno).
Defined.

(** X5, witness: a debug file is registered beside [two_sinks]; a
    message at Notice goes to the new file first, then to the log
    file. *)
Lemma registered_sink_is_served_first_witness :
  is_severity LOG_NOTICE
  ∧ ∃ st1 st2,
      register env_ok (AddFile LOG_DEBUG LOG_ERR "/tmp/debug.log") two_sinks
      = Some (tt, st1)
      ∧ logv env_ok LOG_NOTICE None "Bootstrapped 100%." st1 = Some (tt, st2)
      ∧ deliveries (new_events st1 st2) = [TFile 10; TFile 5].
Proof.
  split; [exact severity_LOG_NOTICE|].
  destruct (registered_sink_is_served_first env_ok
              (AddFile LOG_DEBUG LOG_ERR "/tmp/debug.log") LOG_NOTICE None
              "Bootstrapped 100%." two_sinks severity_LOG_NOTICE)
    as (st1 & st2 & Hreg & Hrun & _ & Hd).
  exists st1, st2. split; [exact Hreg|]. split; [exact Hrun|].
  rewrite Hd. reflexivity.
Defined.

(** X6, witness: the threshold of [two_sinks] is Info; a message at
    Debug changes nothing. *)
Lemma logv_above_threshold_witness :
  get_min_log_level two_sinks = Some (LOG_INFO, two_sinks)
  ∧ (LOG_INFO < LOG_DEBUG)%Z
  ∧ logv env_ok LOG_DEBUG None "Entering main loop." two_sinks
    = Some (tt, two_sinks).
Proof.
  assert (get_min_log_level two_sinks = Some (LOG_INFO, two_sinks)) as Hmin
    by reflexivity.
  assert (LOG_INFO < LOG_DEBUG)%Z as Hlt by reflexivity.
  split; [exact Hmin|]. split; [exact Hlt|].
  exact (logv_above_threshold env_ok LOG_DEBUG None "Entering main loop."
           two_sinks LOG_INFO two_sinks Hmin Hlt).
Defined.

(** X7, witness: the disk is gone; the file sink is unlinked at the
    first message, and its handle is not closed. *)
Lemma logv_only_unlinks_witness :
  is_severity LOG_ERR
  ∧ ∃ st',
      logv env_broken LOG_ERR None "No space left." two_sinks = Some (tt, st')
      ∧ closed_handles (new_events two_sinks st') = []
      ∧ logfiles st' = [callback_sink LOG_ERR LOG_ERR 9].
Proof.
  split; [exact severity_LOG_ERR|].
  destruct (logv_only_unlinks env_broken LOG_ERR None "No space left."
              two_sinks severity_LOG_ERR) as (st' & Hrun & _ & Hcl & _).
  exists st'. split; [exact Hrun|]. split; [exact Hcl|].
  vm_compute in Hrun. by injection Hrun as <-.
Defined.

(** X8, witness: a stream registered for every level from 0 on, and a
    message at level 2, which is not of the scale: the dispatch
    aborts. *)
Lemma logv_severity_off_scale_witness :
  ¬ is_severity 2
  ∧ logv env_ok 2 None "Out of memory."
      (set_logfiles [file_sink LOG_DEBUG 0 "<stdout>" 1 false] empty_state)
    = None.
Proof.
  assert (¬ is_severity 2) as Hs.
  { intros [name Hname]%sev_to_string_is_Some. by vm_compute in Hname. }
  split; [exact Hs|].
  pose proof (logv_severity_off_scale env_ok 2 None "Out of memory."
                (set_logfiles [file_sink LOG_DEBUG 0 "<stdout>" 1 false] empty_state)
                Hs) as Hx.
  destruct (decide _) as [E|_]; [by vm_compute in E|exact Hx].
Defined.

(** X9, witness: a warning from [main] is written to the file of
    [two_sinks] with its time stamp. *)
Lemma logv_record_layout_witness :
  ∃ st',
    logv env_ok LOG_WARN (Some "main") "Clock jumped." two_sinks = Some (tt, st')
    ∧ deliveries (new_events two_sinks st') = [TFile 5]
    ∧ Forall (consumes LOG_WARN
                ("Dec 09 12:00:00.123 [warn] main(): Clock jumped."
                 +:+ String.String LF "")
                ("main(): Clock jumped." +:+ String.String LF ""))
        (new_events two_sinks st')
    ∧ EFputs ("Dec 09 12:00:00.123 [warn] main(): Clock jumped."
              +:+ String.String LF "") 5 true ∈ new_events two_sinks st'.
Proof.
  destruct (logv_record_layout env_ok LOG_WARN "warn" (Some "main")
              "Clock jumped." two_sinks) as (st' & Hrun & Hd & Hc).
  - reflexivity.
  - apply nul_free_forallb. by vm_compute.
  - apply Nat.ltb_lt. by vm_compute.
  - exists st'. split; [exact Hrun|]. split; [exact Hd|]. split; [exact Hc|].
    vm_compute in Hrun. injection Hrun as <-.
    unfold new_events. simpl. rewrite !elem_of_cons. by right; right; left.
Defined.

(** X11, witness: "Notice" parses to the level that renders as
    "notice", and that name parses back to the level. *)
Lemma severity_name_round_trip_witness :
  parse_log_level "Notice" ≠ (-1)%Z
  ∧ log_level_to_string (parse_log_level "Notice") = Some "notice"
  ∧ parse_log_level "notice" = LOG_NOTICE.
Proof.
  destruct severity_name_round_trip as [Hrender Hparse].
  assert (parse_log_level "Notice" ≠ (-1)%Z) as Hne by (by vm_compute).
  split; [exact Hne|]. split.
  - exact (proj2 (Hparse "Notice" Hne)).
  - by apply Hrender.
Defined.
